(* Verification of the gosh store, store RPC client and web server against
   its specification: a shallow embedding of the Go sources
   (internal/util.go, item.go, the Store of storage, store_rpc.go and
   webserver.go) and the properties proved about them. *)

From Stdlib Require Import ZArith String Ascii Bool Lia.
From stdpp Require Import base gmap strings list.

Open Scope Z_scope.

(* stdpp blocks [simpl] on [String.append]; the proofs below compute
   with it. *)
#[local] Arguments String.append : simpl nomatch.

(* ===================================================================== *)
(* Go primitives                                                         *)
(* ===================================================================== *)

Module Go.

(** Two's-complement wrap-around of a Go [int64] / [time.Duration]. *)
Definition wrap64 (z : Z) : Z := ((z + 2 ^ 63) mod 2 ^ 64) - 2 ^ 63.

Definition max_int64 : Z := 2 ^ 63 - 1.

(** Go [string] values are byte strings; Coq's [string] is a list of
    8-bit [ascii] characters, i.e. a byte string. *)
Definition is_digit (c : ascii) : bool :=
  ((48 <=? Z.of_nat (nat_of_ascii c)) && (Z.of_nat (nat_of_ascii c) <=? 57))%Z.

Definition digit_value (c : ascii) : Z := Z.of_nat (nat_of_ascii c) - 48.

Definition digit_char (n : Z) : ascii := ascii_of_nat (Z.to_nat (48 + n)).

(** Decimal digits of a non-negative integer, prepended to [acc]. *)
Fixpoint dec_digits (fuel : nat) (n : Z) (acc : string) : string :=
  match fuel with
  | O => acc
  | S f =>
      let acc' := String (digit_char (n mod 10)) acc in
      if n <? 10 then acc' else dec_digits f (n / 10) acc'
  end.

(** [fmt.Sprintf("%d", n)] for an [int64] [n]. *)
Definition fmt_d (n : Z) : string :=
  if n <? 0 then ("-" ++ dec_digits 20 (- n) "")%string
  else dec_digits 20 n "".

(** [strings.TrimRight(s, " ")]. *)
Fixpoint trim_right_space (s : string) : string :=
  match s with
  | EmptyString => EmptyString
  | String c t =>
      let t' := trim_right_space t in
      match t' with
      | EmptyString => if Ascii.eqb c " "%char then EmptyString else String c EmptyString
      | _ => String c t'
      end
  end.

(** [strconv.Atoi] on a string of ASCII digits (the only strings the
    duration pattern hands to it): the decimal value, or a range error
    beyond [int64]. *)
Fixpoint digits_value (acc : Z) (s : string) : Z :=
  match s with
  | EmptyString => acc
  | String c t => digits_value (acc * 10 + digit_value c) t
  end.

Inductive atoi_result := AtoiOk (v : Z) | AtoiRange.

Definition atoi_digits (s : string) : atoi_result :=
  let v := digits_value 0 s in
  if v <=? max_int64 then AtoiOk v else AtoiRange.

End Go.

Import Go.

(* ===================================================================== *)
(* internal/util.go: ParseDuration and PrettyDuration                    *)
(* ===================================================================== *)

Module Duration.

(** [time.Duration] constants, in nanoseconds. *)
Definition time_second : Z := 1000000000.
Definition time_minute : Z := 60 * time_second.
Definition time_hour : Z := 60 * time_minute.
Definition timeDay : Z := 24 * time_hour.
Definition timeWeek : Z := 7 * timeDay.
(** [time.Duration(30.44 * float64(timeDay))]: a Go constant expression,
    evaluated exactly, 2630016 seconds. *)
Definition timeMonth : Z := 2630016 * time_second.
Definition timeYear : Z := 12 * timeMonth.

(** The [durations] map. *)
Definition durations (key : string) : Z :=
  match key with
  | "s"%string => time_second
  | "m"%string => time_minute
  | "h"%string => time_hour
  | "d"%string => timeDay
  | "w"%string => timeWeek
  | "mo"%string => timeMonth
  | "y"%string => timeYear
  | _ => 0
  end.

Definition durationsOrder : list string :=
  ["y"; "mo"; "w"; "d"; "h"; "m"; "s"]%string.

Definition durationPretty : list string :=
  ["year"; "month"; "week"; "day"; "hour"; "minute"; "second"]%string.

(** Leading run of ASCII digits ([\d+] is greedy and a unit starts with a
    letter, so the run is always taken whole). *)
Fixpoint take_digits (s : string) : string * string :=
  match s with
  | String c t =>
      if is_digit c then let '(ds, rest) := take_digits t in (String c ds, rest)
      else (EmptyString, s)
  | EmptyString => (EmptyString, EmptyString)
  end.

(** One group [((?P<u>\d+)u)] at the front of [s]. *)
Definition match_group (u s : string) : option (string * string) :=
  let '(ds, rest) := take_digits s in
  match ds with
  | EmptyString => None
  | _ => if String.prefix u rest
         then Some (ds, substring (String.length u) (String.length rest - String.length u) rest)
         else None
  end.

(** The anchored pattern [\A((?P<y>\d+)y)?((?P<mo>\d+)mo)?...((?P<s>\d+)s)?\z]
    with leftmost-first (backtracking) semantics: each optional group
    first tries to match, then to be skipped.  Returns the submatches of
    the named groups that took part in the match, in pattern order. *)
Fixpoint match_groups (us : list string) (s : string) : option (list (string * string)) :=
  match us with
  | [] => match s with EmptyString => Some [] | _ => None end
  | u :: us' =>
      match match_group u s with
      | Some (ds, rest) =>
          match match_groups us' rest with
          | Some l => Some ((u, ds) :: l)
          | None => match_groups us' s
          end
      | None => match_groups us' s
      end
  end.

Inductive parse_error := ErrNoMatch | ErrRange.

(** The loop over [pattern.SubexpNames()]:
    [d += time.Duration(elemVal) * durations[elemKey]]. *)
Fixpoint sum_parts (d : Z) (parts : list (string * string)) : Z + parse_error :=
  match parts with
  | [] => inl d
  | (key, ds) :: ps =>
      match atoi_digits ds with
      | AtoiRange => inr ErrRange
      | AtoiOk v => sum_parts (wrap64 (d + wrap64 (v * durations key))) ps
      end
  end.

Definition ParseDuration (s : string) : Z + parse_error :=
  match s with
  | EmptyString => inr ErrNoMatch
  | _ => match match_groups durationsOrder s with
         | None => inr ErrNoMatch
         | Some parts => sum_parts 0 parts
         end
  end.

(** The loop of [PrettyDuration] over [durationsOrder], writing into the
    builder [b]. *)
Fixpoint pretty_loop (units : list (Z * string)) (d : Z) (b : string) : string :=
  match units with
  | [] => b
  | (elemVal, name) :: us =>
      if elemVal >? d then pretty_loop us d b
      else
        let amount := Z.quot d elemVal in
        let d' := Z.rem d elemVal in
        pretty_loop us d'
          (b ++ fmt_d amount ++ " " ++ name ++ (if amount >? 1 then "s" else "") ++ " ")%string
  end.

Definition pretty_units : list (Z * string) :=
  combine (map durations durationsOrder) durationPretty.

Definition PrettyDuration (d : Z) : string :=
  trim_right_space (pretty_loop pretty_units d "").

Example parse_1d5m : ParseDuration "1d5m" = inl (timeDay + 5 * time_minute).
Proof. vm_compute. reflexivity. Qed.
Example parse_4w : ParseDuration "4w" = inl (4 * timeWeek).
Proof. vm_compute. reflexivity. Qed.
Example parse_out_of_order : ParseDuration "1m10h" = inr ErrNoMatch.
Proof. vm_compute. reflexivity. Qed.
Example parse_negative : ParseDuration "-1m" = inr ErrNoMatch.
Proof. vm_compute. reflexivity. Qed.
Example pretty_2h4m10s :
  PrettyDuration (2 * time_hour + 4 * time_minute + 10 * time_second)
  = "2 hours 4 minutes 10 seconds"%string.
Proof. vm_compute. reflexivity. Qed.
Example pretty_13mo : PrettyDuration (13 * timeMonth) = "1 year 1 month"%string.
Proof. vm_compute. reflexivity. Qed.

End Duration.

(* ===================================================================== *)
(* internal/util.go: ParseBytesize                                        *)
(* ===================================================================== *)

Module Bytesize.
Import Duration.

Inductive bytesize_error :=
  | BErrNoMatch        (* ErrNoMatch *)
  | BErrRange          (* the range error of strconv.Atoi *)
  | BErrMissing.       (* "Not all values were found, ..." *)

Definition bytePrefixes : list string := ["B"; "K"; "M"; "G"; "T"; "P"]%string.

Definition is_prefix_letter (c : ascii) : bool :=
  existsb (Ascii.eqb c) ["K"; "M"; "G"; "T"; "P"]%char.

(** The unit group [(?P<unit>([KMGTP]i?)?B)] followed by [\z]: the rest
    of the input is "B", "<p>B" or "<p>iB". *)
Definition unit_match (u : string) : bool :=
  match u with
  | String c EmptyString => Ascii.eqb c "B"%char
  | String p (String c EmptyString) => is_prefix_letter p && Ascii.eqb c "B"%char
  | String p (String i (String c EmptyString)) =>
      is_prefix_letter p && Ascii.eqb i "i"%char && Ascii.eqb c "B"%char
  | _ => false
  end.

(** The loop [for _, pref := range bytePrefixes { if pref == unit
    { break }; size *= 1024 }] with [int64] wrap-around. *)
Fixpoint scale_loop (prefs : list string) (unit : string) (size : Z) : Z :=
  match prefs with
  | [] => size
  | pref :: ps =>
      if String.eqb pref unit then size else scale_loop ps unit (wrap64 (size * 1024))
  end.

(** [ParseBytesize].  [bytePattern] is [\A(?P<size>\d+)(?P<unit>...)\z]:
    the unit starts with a letter, so [\d+] matches the whole leading
    run of digits and the unit group the whole rest.  [parts[i][:1]] of
    the unit group is its first byte. *)
Definition ParseBytesize (s : string) : Z + bytesize_error :=
  let '(ds, rest) := take_digits s in
  if negb (String.eqb ds "") && unit_match rest then
    match atoi_digits ds with
    | AtoiRange => inr BErrRange
    | AtoiOk size =>
        let unit := substring 0 1 rest in
        if (size =? 0) || String.eqb unit "" then inr BErrMissing
        else inl (scale_loop bytePrefixes unit size)
    end
  else inr BErrNoMatch.

Example parse_bytes_tests :
  ParseBytesize "1B" = inl 1 /\ ParseBytesize "1KiB" = inl 1024 /\
  ParseBytesize "1KB" = inl 1024 /\ ParseBytesize "23MiB" = inl (23 * 1024 * 1024) /\
  ParseBytesize "0B" = inr BErrMissing /\ ParseBytesize "1kB" = inr BErrNoMatch.
Proof. vm_compute. repeat split. Qed.

End Bytesize.

(* ===================================================================== *)
(* item.go: Item and NewItemFromRequest                                  *)
(* ===================================================================== *)

Module ItemModel.
Import Duration.

(** [OwnerType]. *)
Inductive OwnerType := RemoteAddr | Forwarded | XForwardedFor.

(** [Item]; timestamps are [time.Time] instants in nanoseconds. *)
Record Item := mkItem {
  ID : string;
  DeletionKey : string;
  BurnAfterReading : bool;
  Filename : string;
  ContentType : string;
  Created : Z;
  Expires : Z;
  Owner : list (OwnerType * string)
}.

Definition empty_item : Item := mkItem "" "" false "" "" 0 0 [].

(* ---------- path/filepath on Unix ---------- *)

Fixpoint split_slash_aux (cur : string) (s : string) : list string :=
  match s with
  | EmptyString => [cur]
  | String c t =>
      if Ascii.eqb c "/"%char then cur :: split_slash_aux EmptyString t
      else split_slash_aux (cur ++ String c EmptyString)%string t
  end.

(** The path elements between slashes. *)
Definition split_slash (s : string) : list string := split_slash_aux EmptyString s.

Fixpoint join_slash (l : list string) : string :=
  match l with
  | [] => EmptyString
  | [x] => x
  | x :: xs => (x ++ "/" ++ join_slash xs)%string
  end.

(** One element of [filepath.Clean]'s lexical processing; [stack] holds
    the kept elements, last one first. *)
Definition clean_step (rooted : bool) (stack : list string) (elem : string) : list string :=
  if String.eqb elem "" then stack
  else if String.eqb elem "." then stack
  else if String.eqb elem ".." then
    match stack with
    | top :: rest => if String.eqb top ".." then ".." :: stack else rest
    | [] => if rooted then [] else [".."]
    end
  else elem :: stack.

(** [filepath.Clean]: drop empty and "." elements, let ".." remove the
    preceding element (or vanish at the root), keep a leading slash, and
    return "." for an empty result. *)
Definition Clean (p : string) : string :=
  match p with
  | EmptyString => "."
  | String c _ =>
      let rooted := Ascii.eqb c "/"%char in
      let kept := rev (fold_left (clean_step rooted) (split_slash p) []) in
      let out := ((if rooted then "/" else "") ++ join_slash kept)%string in
      match out with EmptyString => "." | _ => out end
  end.

Fixpoint strip_trailing_slashes_rev (r : list ascii) : list ascii :=
  match r with
  | c :: t => if Ascii.eqb c "/"%char then strip_trailing_slashes_rev t else r
  | [] => []
  end.

Fixpoint last_elem_rev (r : list ascii) : list ascii :=
  match r with
  | c :: t => if Ascii.eqb c "/"%char then [] else c :: last_elem_rev t
  | [] => []
  end.

(** [filepath.Base] (no volume names on Unix); computed on the reversed
    byte list. *)
Definition Base (p : string) : string :=
  match p with
  | EmptyString => "."
  | _ =>
      let r := strip_trailing_slashes_rev (rev (list_ascii_of_string p)) in
      match r with
      | [] => "/"
      | _ => string_of_list_ascii (rev (last_elem_rev r))
      end
  end.

(* ---------- regexp on UTF-8 input ---------- *)

Definition byte_at (s : string) (n : nat) : Z :=
  match String.get n s with Some c => Z.of_nat (nat_of_ascii c) | None => 0 end.

Definition RuneError : Z := 65533.

Definition in_range (lo hi b : Z) : bool := (lo <=? b) && (b <=? hi).

(** [utf8.DecodeRuneInString] on a non-empty string: the rune and its
    width in bytes; an invalid or truncated sequence is [RuneError] of
    width 1.  The table gives, per leading byte, the sequence size and
    the accepted range of the second byte. *)
Definition utf8_first (b0 : Z) : option (nat * Z * Z) :=
  if in_range 194 223 b0 then Some (2%nat, 128, 191)
  else if b0 =? 224 then Some (3%nat, 160, 191)
  else if in_range 225 236 b0 then Some (3%nat, 128, 191)
  else if b0 =? 237 then Some (3%nat, 128, 159)
  else if in_range 238 239 b0 then Some (3%nat, 128, 191)
  else if b0 =? 240 then Some (4%nat, 144, 191)
  else if in_range 241 243 b0 then Some (4%nat, 128, 191)
  else if b0 =? 244 then Some (4%nat, 128, 143)
  else None.

Definition DecodeRune (s : string) : Z * nat :=
  let b0 := byte_at s 0 in
  if b0 <? 128 then (b0, 1%nat)
  else match utf8_first b0 with
  | None => (RuneError, 1%nat)
  | Some (sz, lo, hi) =>
      if (String.length s <? sz)%nat then (RuneError, 1%nat)
      else let b1 := byte_at s 1 in
      if negb (in_range lo hi b1) then (RuneError, 1%nat)
      else if (sz =? 2)%nat then
        (Z.lor (Z.shiftl (Z.land b0 31) 6) (Z.land b1 63), 2%nat)
      else let b2 := byte_at s 2 in
      if negb (in_range 128 191 b2) then (RuneError, 1%nat)
      else if (sz =? 3)%nat then
        (Z.lor (Z.lor (Z.shiftl (Z.land b0 15) 12) (Z.shiftl (Z.land b1 63) 6))
               (Z.land b2 63), 3%nat)
      else let b3 := byte_at s 3 in
      if negb (in_range 128 191 b3) then (RuneError, 1%nat)
      else
        (Z.lor (Z.lor (Z.lor (Z.shiftl (Z.land b0 7) 18) (Z.shiftl (Z.land b1 63) 12))
                      (Z.shiftl (Z.land b2 63) 6)) (Z.land b3 63), 4%nat)
  end.

(** Membership of a rune in the class [0-9A-Za-z-_.]. *)
Definition filename_class (r : Z) : bool :=
  in_range 48 57 r || in_range 65 90 r || in_range 97 122 r ||
  (r =? 45) || (r =? 95) || (r =? 46).

(** [filenamePattern.ReplaceAllString(s, "_")] for the pattern
    [[^0-9A-Za-z-_.]]: every rune outside the class becomes "_", every
    other rune is copied. [fuel] bounds the number of runes. *)
Fixpoint replace_all (fuel : nat) (s : string) : string :=
  match fuel with
  | O => EmptyString
  | S f =>
      match s with
      | EmptyString => EmptyString
      | _ =>
          let '(r, w) := DecodeRune s in
          let rest := substring w (String.length s - w) s in
          if filename_class r then (substring 0 w s ++ replace_all f rest)%string
          else ("_" ++ replace_all f rest)%string
      end
  end.

Definition ReplaceAllFilename (s : string) : string := replace_all (String.length s) s.

(** The [item.Filename] computation of [NewItemFromRequest]. *)
Definition sanitize_filename (f : string) : string :=
  ReplaceAllFilename (Base (Clean f)).

Example clean_evil : Clean "../evil name.html" = "../evil name.html"%string.
Proof. reflexivity. Qed.
Example sanitize_evil : sanitize_filename "../evil name.html" = "evil_name.html"%string.
Proof. vm_compute. reflexivity. Qed.
Example sanitize_root : sanitize_filename "/" = "_"%string.
Proof. vm_compute. reflexivity. Qed.
Example clean_dots : Clean "/a/b/../../../c/./d/" = "/c/d"%string.
Proof. vm_compute. reflexivity. Qed.
Example sanitize_utf8 : sanitize_filename
  ("a/b/caf" ++ String (ascii_of_nat 195) (String (ascii_of_nat 169) ".txt"))%string = "caf_.txt"%string.
Proof. vm_compute. reflexivity. Qed.

(* ---------- NewItemFromRequest ---------- *)

(** The [multipart.FileHeader] of the form field "file". *)
Record FileHeader := mkFileHeader {
  fh_Filename : string;
  fh_Size : Z;
  fh_ContentType : string   (* fileHeader.Header.Get("Content-Type") *)
}.

(** What [NewItemFromRequest] reads from an [http.Request]: whether
    [ParseMultipartForm] succeeds, the "file" part, the form values
    "burn" and "time" (empty when absent), and the outcome of
    [NewOwnerTypes(r)] ([None] for its error). *)
Record Request := mkRequest {
  req_multipart_ok : bool;
  req_file : option FileHeader;
  req_burn : string;
  req_time : string;
  req_owners : option (list (OwnerType * string))
}.

(** The outside world during the call: [time.Now()] and the base58 text
    of the 24 random bytes of [rand.Read] ([None] for its error). *)
Record Env := mkEnv {
  env_now : Z;
  env_random_key : option string
}.

Inductive item_error :=
  | ErrLifetimeTooLong
  | ErrFileTooBig
  | ErrMultipart
  | ErrMissingFile
  | ErrSizeZero
  | ErrRandom
  | ErrMissingContentType
  | ErrLifetimeParse (e : parse_error)
  | ErrOwners.

Definition NewItemFromRequest (r : Request) (maxSize maxLifetime : Z) (env : Env)
    : Item + item_error :=
  if negb (req_multipart_ok r) then inr ErrMultipart else
  match req_file r with
  | None => inr ErrMissingFile
  | Some fh =>
    if fh_Size fh >? maxSize then inr ErrFileTooBig else
    if fh_Size fh <=? 0 then inr ErrSizeZero else
    match env_random_key env with
    | None => inr ErrRandom
    | Some delKey =>
      let burn := String.eqb (req_burn r) "1" in
      let filename := sanitize_filename (fh_Filename fh) in
      let ctype := fh_ContentType fh in
      if String.eqb ctype "" then inr ErrMissingContentType else
      let created := env_now env in
      let expires :=
        match req_time r with
        | EmptyString => inl (created + maxLifetime)
        | lifetime =>
            match ParseDuration lifetime with
            | inr e => inr (ErrLifetimeParse e)
            | inl parseLt =>
                if parseLt >? maxLifetime then inr ErrLifetimeTooLong
                else inl (created + parseLt)
            end
        end in
      match expires with
      | inr e => inr e
      | inl exp =>
          match req_owners r with
          | None => inr ErrOwners
          | Some owners => inl (mkItem "" delKey burn filename ctype created exp owners)
          end
      end
    end
  end.

End ItemModel.

(* ===================================================================== *)
(* Store (storage): createID, Put, Delete                                *)
(* ===================================================================== *)

Module StoreModel.
Import ItemModel.

(** One call of [Store.idGenerator]. *)
Inductive gen_result := GenOk (id : string) | GenErr.

(** [s.bh.Get(id, Item{})]: nil, [badgerhold.ErrNotFound], or another
    error. *)
Inductive kv_get_result := KvFound | KvNotFound | KvErr.

Inductive store_error :=
  | ErrGenerator           (* error of the id generator *)
  | ErrKv                  (* other error of the KV store *)
  | ErrNoFreeID            (* "failed to calculate a free ID" *)
  | ErrKvNotFound          (* badgerhold.ErrNotFound from bh.Delete *)
  | ErrInsert              (* error of bh.Insert *)
  | ErrFileCreate          (* error of os.Create *)
  | ErrCopy                (* error of io.Copy *)
  | ErrClose               (* error of file.Close / f.Close *)
  | ErrRemove.             (* error of os.Remove, e.g. ENOENT *)

(** The loop of [createID]: [n] attempts left, [i] generator calls made;
    [gen i] is the result of the i-th call of the generator and [get] the
    index lookup. *)
Fixpoint createID_loop (n i : nat) (gen : nat -> gen_result)
    (get : string -> kv_get_result) : string + store_error :=
  match n with
  | O => inr ErrNoFreeID
  | S n' =>
      match gen i with
      | GenErr => inr ErrGenerator
      | GenOk id =>
          match get id with
          | KvFound => createID_loop n' (S i) gen get
          | KvNotFound => inl id
          | KvErr => inr ErrKv
          end
      end
  end.

(** [for i := 0; i < 32; i++ { ... }]. *)
Definition createID (gen : nat -> gen_result) (get : string -> kv_get_result)
    : string + store_error :=
  createID_loop 32 0 gen get.

(** The store's persistent state: the badgerhold index and the files
    [<storage>/<id>] with their contents. *)
Record StoreState := mkStoreState {
  index : gmap string Item;
  blobs : gmap string string
}.

(** [s.bh.Get(id, Item{})] as [createID] calls it.  For an absent key
    badgerhold answers [ErrNotFound].  For a present key it decodes the
    stored value with gob ([badgerhold.DefaultOptions]) into the
    non-pointer [Item{}], and gob refuses that with "attempt to decode
    into a non-pointer": an error that is neither nil nor [ErrNotFound]. *)
Definition kv_get (st : StoreState) (id : string) : kv_get_result :=
  match index st !! id with Some _ => KvErr | None => KvNotFound end.

(** The effects on the persistent state, in the order they happen. *)
Inductive effect :=
  | EffInsert (id : string) (it : Item)   (* bh.Insert(i.ID, i) *)
  | EffCreate (id : string)               (* os.Create(<storage>/<id>) *)
  | EffWrite (id : string) (data : string)(* io.Copy(f, file) *)
  | EffCloseBody                          (* file.Close() *)
  | EffCloseFile.                         (* f.Close() *)

Definition apply_effect (st : StoreState) (e : effect) : StoreState :=
  match e with
  | EffInsert id it => mkStoreState (<[id := it]> (index st)) (blobs st)
  | EffCreate id => mkStoreState (index st) (<[id := ""%string]> (blobs st))
  | EffWrite id data => mkStoreState (index st) (<[id := data]> (blobs st))
  | EffCloseBody | EffCloseFile => st
  end.

(** The state left by a crash after the first [k] effects. *)
Definition crash_state (st : StoreState) (tr : list effect) (k : nat) : StoreState :=
  fold_left apply_effect (firstn k tr) st.

(** Outcomes of the I/O primitives during one [Put]: whether
    [bh.Insert] and [os.Create] succeed, how many body bytes [io.Copy]
    writes before failing ([None]: it succeeds), and whether the two
    [Close] calls succeed. *)
Record PutIO := mkPutIO {
  io_insert_ok : bool;
  io_create_ok : bool;
  io_copy_fails_after : option nat;
  io_close_body_ok : bool;
  io_close_file_ok : bool
}.

(** [Store.Put(i, file)]: the final result and the effects performed. *)
Definition Put (st : StoreState) (gen : nat -> gen_result) (io : PutIO)
    (i : Item) (body : string) : (string + store_error) * list effect :=
  match createID gen (kv_get st) with
  | inr e => (inr e, [])
  | inl id =>
      let i' := {| ID := id; DeletionKey := DeletionKey i;
                   BurnAfterReading := BurnAfterReading i; Filename := Filename i;
                   ContentType := ContentType i; Created := Created i;
                   Expires := Expires i; Owner := Owner i |} in
      if negb (io_insert_ok io) then (inr ErrInsert, []) else
      let tr1 := [EffInsert id i'] in
      if negb (io_create_ok io) then (inr ErrFileCreate, tr1) else
      let tr2 := tr1 ++ [EffCreate id] in
      match io_copy_fails_after io with
      | Some n => (inr ErrCopy, tr2 ++ [EffWrite id (substring 0 n body)])
      | None =>
          let tr3 := tr2 ++ [EffWrite id body] in
          if negb (io_close_body_ok io) then (inr ErrClose, tr3 ++ [EffCloseBody]) else
          let tr4 := tr3 ++ [EffCloseBody] in
          if negb (io_close_file_ok io) then (inr ErrClose, tr4 ++ [EffCloseFile]) else
          (inl id, tr4 ++ [EffCloseFile])
      end
  end.

Definition run_put (st : StoreState) (gen : nat -> gen_result) (io : PutIO)
    (i : Item) (body : string) : StoreState * (string + store_error) :=
  let '(r, tr) := Put st gen io i body in
  (crash_state st tr (length tr), r).

(** [Store.Delete(id)]: [bh.Delete(&id, Item{})] (the pointer key
    encodes like the string key) returns [badgerhold.ErrNotFound] for an
    absent key; [os.Remove] fails on an absent file. *)
Definition Delete (st : StoreState) (id : string) : StoreState * (unit + store_error) :=
  match index st !! id with
  | None => (st, inr ErrKvNotFound)
  | Some _ =>
      let st1 := mkStoreState (delete id (index st)) (blobs st) in
      match blobs st !! id with
      | None => (st1, inr ErrRemove)
      | Some _ => (mkStoreState (index st1) (delete id (blobs st1)), inl tt)
      end
  end.


(** Errors of [Store.Get]: [ErrNotFound], or the error of the [Delete]
    of an expired Item. *)
Inductive get_error := ErrNotFound | ErrGetDelete (e : store_error).

(** [Store.Get(id)] at time [now]; [cleanup] is [s.cleanup].  An expired
    Item ([i.Expires.Before(time.Now())]) is deleted by its [ID] field
    and reported as not found. *)
Definition Get (st : StoreState) (cleanup : bool) (now : Z) (id : string)
    : StoreState * (Item + get_error) :=
  match index st !! id with
  | None => (st, inr ErrNotFound)
  | Some i =>
      if cleanup && (Expires i <? now) then
        let '(st', r) := Delete st (ID i) in
        match r with
        | inr e => (st', inr (ErrGetDelete e))
        | inl _ => (st', inr ErrNotFound)
        end
      else (st, inl i)
  end.

(** The loop of [deleteExpired] over the found items: [s.Delete(i.ID)],
    returning the first error. *)
Fixpoint delete_each (st : StoreState) (items : list Item) : StoreState * (unit + store_error) :=
  match items with
  | [] => (st, inl tt)
  | i :: is =>
      let '(st', r) := Delete st (ID i) in
      match r with
      | inr e => (st', inr e)
      | inl _ => delete_each st' is
      end
  end.

(** [deleteExpired], [found] being the items [s.bh.Find] returns for
    [badgerhold.Where("Expires").Lt(time.Now())], in its order. *)
Definition deleteExpired (st : StoreState) (found : list Item) : StoreState * (unit + store_error) :=
  delete_each st found.

End StoreModel.

(* ===================================================================== *)
(* store_rpc.go: StoreRpcClient.call                                     *)
(* ===================================================================== *)

Module RpcModel.

(** Kinds of Go [error] values met here; [None] is the nil error. *)
Inductive err_kind :=
  | DeadlineExceeded      (* context.DeadlineExceeded *)
  | Canceled              (* context.Canceled *)
  | RemoteErr (msg : string).

(** A parent [context.Context], times in milliseconds from the start of
    [call]: [context.Background()] is never done and its [Err()] is nil;
    a cancellable context is done from [t_cancel] on with error [why]. *)
Inductive Ctx :=
  | Background
  | CancelledAt (t_cancel : Z) (why : err_kind).

Definition ctx_done_at (c : Ctx) : option Z :=
  match c with Background => None | CancelledAt t _ => Some t end.

(** [ctx.Err()] at time [now]. *)
Definition ctx_err (c : Ctx) (now : Z) : option err_kind :=
  match c with
  | Background => None
  | CancelledAt t why => if t <=? now then Some why else None
  end.

Definition rpc_timeout : Z := 3000.

(** [context.WithTimeout(ctx, 3*time.Second)]: done at the earlier of the
    parent's end and the 3 s deadline. *)
Definition timeout_done_at (c : Ctx) : Z :=
  match ctx_done_at c with Some t => Z.min t rpc_timeout | None => rpc_timeout end.

(** [timeout.Err()] once it is done. *)
Definition timeout_err (c : Ctx) : option err_kind :=
  match ctx_err c (timeout_done_at c) with
  | Some e => Some e
  | None => Some DeadlineExceeded
  end.

(** The reply of [client.rpcClient.Go(...)]: the time [call.Done]
    delivers it and its [Error]; [None] when no reply comes. *)
Definition Reply := option (Z * option err_kind).

(** [StoreRpcClient.call]: the possible results.  The [select] takes the
    channel that is ready first, either of them when both are ready at
    once.  On the timeout branch the code returns [ctx.Err()] of the
    PARENT context [ctx], not [timeout.Err()]. *)
Definition call (c : Ctx) (rep : Reply) : list (option err_kind) :=
  let td := timeout_done_at c in
  match rep with
  | None => [ctx_err c td]
  | Some (tr, e) =>
      if tr <? td then [e]
      else if td <? tr then [ctx_err c td]
      else [e; ctx_err c td]
  end.

End RpcModel.

(* ===================================================================== *)
(* webserver.go: handleRequest and handleDeletion                        *)
(* ===================================================================== *)

Module WebModel.
Import ItemModel.

(** The store calls the handler issues, in order. *)
Inductive store_call :=
  | CallGet (id : string)
  | CallGetFile (id : string)
  | CallDelete (id : string).

(** The reply of [serv.store.Get]. *)
Inductive get_reply := GetOk (it : Item) | GetNotFound | GetErr.

(** Status code written and whether the blob was streamed as body. *)
Record Response := mkResponse { status : Z; body_streamed : bool }.

(** [hasClientCachedRequest]: [ims] is [http.ParseTime] of the
    If-Modified-Since header ([None] on a parse error, also for an absent
    header). *)
Definition hasClientCachedRequest (ims : option Z) (item : Item) : bool :=
  match ims with
  | None => false
  | Some t => (Created item <? t) && (Expires item >? t)
  end.

(** [handleRequest] for a request with method [method] for id [reqId];
    [get] is the store's reply to [Get] and [getfile_ok] whether
    [GetFile] succeeds.  [handleRequestServe] ignores the error of
    [io.Copy], so a successful [GetFile] always yields status 200. *)
Definition handleRequest (method reqId : string) (ims : option Z) (get : get_reply)
    (getfile_ok : bool) : Response * list store_call :=
  if negb (String.eqb method "GET") then (mkResponse 405 false, []) else
  match get with
  | GetNotFound => (mkResponse 404 false, [CallGet reqId])
  | GetErr => (mkResponse 400 false, [CallGet reqId])
  | GetOk item =>
      let served :=
        if hasClientCachedRequest ims item then Some (mkResponse 304 false, [CallGet reqId])
        else if getfile_ok then Some (mkResponse 200 true, [CallGet reqId; CallGetFile (ID item)])
        else None in
      match served with
      | None => (mkResponse 400 false, [CallGet reqId; CallGetFile (ID item)])
      | Some (resp, calls) =>
          if BurnAfterReading item then (resp, calls ++ [CallDelete (ID item)])
          else (resp, calls)
      end
  end.

(** The runtime's [memeqbody] (internal/bytealg/equal_amd64.s) on the
    byte lists [a] and [b] of equal length, with the number of compare
    steps it executes.  [off] is the offset reached by the pointers
    SI/DI and [rem] the byte count BX.  [bigloop] compares 8-byte words
    while more than 8 bytes remain and returns at the first unequal
    word; [leftover] then compares the last 8 bytes of the strings,
    [-8(SI)(BX*1)], overlapping bytes already compared.  [fuel] only
    bounds the recursion; every caller passes enough of it. *)
Definition chunk_eq (off w : nat) (a b : list ascii) : bool :=
  bool_decide (take w (drop off a) = take w (drop off b)).

Fixpoint bigloop (fuel off rem : nat) (a b : list ascii) : bool * nat :=
  match fuel with
  | O => (false, 0%nat)
  | S f =>
      if (rem <=? 8)%nat then (chunk_eq (off + rem - 8) 8 a b, 1%nat)
      else if chunk_eq off 8 a b then
        let '(r, c) := bigloop f (off + 8) (rem - 8) a b in (r, S c)
      else (false, 1%nat)
  end.

(** [hugeloop] / [hugeloop_avx2]: 64-byte blocks while at least 64 bytes
    remain, returning at the first unequal block, then [bigloop]. *)
Fixpoint hugeloop (fuel off rem : nat) (a b : list ascii) : bool * nat :=
  match fuel with
  | O => (false, 0%nat)
  | S f =>
      if (rem <? 64)%nat then bigloop (S rem) off rem a b
      else if chunk_eq off 64 a b then
        let '(r, c) := hugeloop f (off + 64) (rem - 64) a b in (r, S c)
      else (false, 1%nat)
  end.

(** [memeqbody]: fewer than 8 bytes ([small]) are compared in one step
    (none for the empty string), otherwise [hugeloop]. *)
Definition memeqbody (a b : list ascii) : bool * nat :=
  let n := length a in
  if (n <? 8)%nat then
    (if (n =? 0)%nat then (true, 0%nat) else (bool_decide (a = b), 1%nat))
  else hugeloop (S n) 0 n a b.

(** Go's [a != b] on strings, with the compare steps of the runtime: a
    length mismatch answers at once; for equal lengths [runtime.memequal]
    checks the data pointers (distinct here: the stored key is decoded
    from the database, the given one is cut from the URL) and runs
    [memeqbody]. *)
Definition string_ne (a b : string) : bool * nat :=
  if (String.length a =? String.length b)%nat then
    let '(eq, n) := memeqbody (list_ascii_of_string a) (list_ascii_of_string b) in (negb eq, n)
  else (true, 0%nat).

Fixpoint trim_left_slash (s : string) : string :=
  match s with
  | String c t => if Ascii.eqb c "/"%char then trim_left_slash t else s
  | EmptyString => EmptyString
  end.

(** Whether a string holds no path separator. *)
Fixpoint no_slash (s : string) : bool :=
  match s with
  | EmptyString => true
  | String c t => negb (Ascii.eqb c "/"%char) && no_slash t
  end.

(** [handleDeletion] for the path after the URL prefix; [get] and
    [delete_ok] are the store's replies.  Besides the status and the
    store calls it returns the compare steps of the key check ([None]
    when no key check ran). *)
Definition handleDeletion (method path : string) (get : get_reply) (delete_ok : bool)
    : Z * list store_call * option nat :=
  if negb (String.eqb method "GET") then (405, [], None) else
  match split_slash (trim_left_slash path) with
  | [_; reqId; delKey] =>
      match get with
      | GetNotFound => (404, [CallGet reqId], None)
      | GetErr => (400, [CallGet reqId], None)
      | GetOk item =>
          let '(ne, cost) := string_ne (DeletionKey item) delKey in
          if ne then (403, [CallGet reqId], Some cost)
          else if delete_ok then (200, [CallGet reqId; CallDelete (ID item)], Some cost)
          else (400, [CallGet reqId; CallDelete (ID item)], Some cost)
      end
  | _ => (400, [], None)
  end.


(** [strings.Index(s, sep)]: the first offset at which [sep] occurs. *)
Fixpoint strings_index (sep s : string) : option nat :=
  if String.prefix sep s then Some 0%nat else
  match s with
  | EmptyString => None
  | String _ t => option_map S (strings_index sep t)
  end.

(** [strings.Cut(s, sep)]: the text before and after the first [sep]. *)
Definition strings_cut (s sep : string) : string * string * bool :=
  match strings_index sep s with
  | Some i =>
      let j := (i + String.length sep)%nat in
      (substring 0 i s, substring j (String.length s - j) s, true)
  | None => (s, EmptyString, false)
  end.

(** The handler [ServeHTTP] dispatches to. *)
Inductive route :=
  | RouteRedirect (location : string)   (* http.RedirectHandler, 307 *)
  | RouteRoot                           (* handleRoot *)
  | RouteDeletion                       (* handleDeletion *)
  | RouteStatic (name : string)         (* handleStaticFile *)
  | RouteRequest.                       (* handleRequest *)

(** [ServeHTTP] for the URL path [path]; [staticFiles] are the keys of
    [serv.staticFiles]. *)
Definition ServeHTTP (urlPrefix : string) (staticFiles : gset string) (path : string) : route :=
  let '(_, reqPath, _) := strings_cut path urlPrefix in
  if String.eqb reqPath "" then RouteRedirect (urlPrefix ++ "/")
  else if String.eqb reqPath "/" then RouteRoot
  else if String.prefix "/del/" reqPath then RouteDeletion
  else if decide (reqPath ∈ staticFiles) then RouteStatic reqPath
  else RouteRequest.

(** [handleUpload]: the status written and the Item passed to
    [serv.store.Put] ([None]: no [Put]); [mimeDrop] are the keys of
    [serv.mimeDrop] and [put_ok] whether [Put] succeeds. *)
Definition handleUpload (r : Request) (maxSize maxLifetime : Z) (env : Env)
    (mimeDrop : gset string) (put_ok : bool) : Z * option Item :=
  match NewItemFromRequest r maxSize maxLifetime env with
  | inr ErrLifetimeTooLong => (406, None)
  | inr ErrFileTooBig => (406, None)
  | inr _ => (400, None)
  | inl item =>
      if decide (ContentType item ∈ mimeDrop) then (400, None)
      else (if put_ok then 200 else 400, Some item)
  end.

End WebModel.

(* ===================================================================== *)
(* Lemmas on byte strings                                                *)
(* ===================================================================== *)

Module StrFacts.

Fixpoint has_space (s : string) : bool :=
  match s with
  | EmptyString => false
  | String c t => Ascii.eqb c " "%char || has_space t
  end.

Lemma has_space_app (x y : string) :
  has_space (x ++ y) = has_space x || has_space y.
Proof. induction x as [|c x IH]; simpl; [reflexivity|]. rewrite IH, orb_assoc. reflexivity. Qed.

Lemma app_assoc_str (x y z : string) : (x ++ y ++ z = (x ++ y) ++ z)%string.
Proof. induction x as [|c x IH]; simpl; [reflexivity|]. f_equal. exact IH. Qed.

Lemma trim_right_space_app (x y : string) :
  trim_right_space (x ++ y) =
  match trim_right_space y with
  | EmptyString => trim_right_space x
  | t => (x ++ t)%string
  end.
Proof.
  induction x as [|c x IH]; simpl.
  - destruct (trim_right_space y); reflexivity.
  - rewrite IH. destruct (trim_right_space y) eqn:Ey.
    + reflexivity.
    + destruct (x ++ String a s)%string eqn:Ex; [|reflexivity].
      destruct x; discriminate.
Qed.

Lemma has_space_trim (b : string) :
  has_space (trim_right_space b) = true -> has_space b = true.
Proof.
  induction b as [|c b IH]; simpl; [discriminate|].
  destruct (trim_right_space b) as [|a s] eqn:E.
  - destruct (Ascii.eqb c " "%char) eqn:Ec; simpl; intros H; [discriminate|].
    rewrite Ec in H. discriminate.
  - intros H. simpl in H. apply orb_true_iff in H as [H|H].
    + rewrite H. reflexivity.
    + rewrite (IH H). apply orb_true_r.
Qed.

Lemma has_space_trim_app (b y : string) :
  has_space (trim_right_space b) = true ->
  has_space (trim_right_space (b ++ y)) = true.
Proof.
  intros Hb. rewrite trim_right_space_app.
  destruct (trim_right_space y); [exact Hb|].
  rewrite has_space_app, (has_space_trim b Hb). reflexivity.
Qed.

Lemma has_space_trim_word (x z : string) (c : ascii) :
  c <> " "%char ->
  has_space (trim_right_space (x ++ String " " (String c z))) = true.
Proof.
  intros Hc. rewrite trim_right_space_app. simpl.
  destruct (trim_right_space z) eqn:Ez.
  - destruct (Ascii.eqb c " "%char) eqn:Ec.
    + apply Ascii.eqb_eq in Ec. contradiction.
    + rewrite has_space_app. simpl. apply orb_true_r.
  - rewrite has_space_app. simpl. apply orb_true_r.
Qed.

End StrFacts.

Import StrFacts.

Module FilenameFacts.
Import ItemModel.

Lemma lor_ge_l (a b : Z) : 0 <= b -> a <= Z.lor a b.
Proof.
  intros Hb.
  assert (E : Z.lor a b = a + Z.ldiff b a).
  { rewrite Z.add_nocarry_lxor.
    - apply Z.bits_inj'; intros n _.
      rewrite Z.lxor_spec, Z.lor_spec, Z.ldiff_spec.
      destruct (Z.testbit a n), (Z.testbit b n); reflexivity.
    - apply Z.bits_inj'; intros n _.
      rewrite Z.land_spec, Z.ldiff_spec, Z.bits_0.
      destruct (Z.testbit a n), (Z.testbit b n); reflexivity. }
  rewrite E. assert (0 <= Z.ldiff b a) by (apply Z.ldiff_nonneg; left; exact Hb). lia.
Qed.

Lemma lor_ge_r (a b : Z) : 0 <= a -> b <= Z.lor a b.
Proof. intros Ha. rewrite Z.lor_comm. apply lor_ge_l, Ha. Qed.

Lemma land_mod (a : Z) (k : Z) : 0 <= k -> Z.land a (Z.ones k) = a mod 2 ^ k.
Proof. intros Hk. apply Z.land_ones, Hk. Qed.

Lemma byte_at_nonneg (s : string) (n : nat) : 0 <= byte_at s n.
Proof. unfold byte_at. destruct (String.get n s); lia. Qed.

Lemma byte_at_0 (c : ascii) (t : string) :
  byte_at (String c t) 0 = Z.of_nat (nat_of_ascii c).
Proof. reflexivity. Qed.

Lemma mod_low (b m lo : Z) : 0 < m -> lo <= b -> b < lo + m -> lo mod m = 0 ->
  b mod m = b - lo.
Proof.
  intros Hm H1 H2 H3.
  pose proof (Z.div_mod lo m ltac:(lia)). pose proof (Z.div_mod b m ltac:(lia)).
  pose proof (Z.mod_pos_bound b m Hm).
  assert (b / m = lo / m) by nia. lia.
Qed.

Lemma utf8_first_spec (b0 : Z) sz lo hi :
  utf8_first b0 = Some (sz, lo, hi) ->
  hi <= 191 /\
  ((sz = 2%nat /\ 194 <= b0 <= 223) \/
  (sz = 3%nat /\ b0 = 224 /\ lo = 160) \/
  (sz = 3%nat /\ 225 <= b0 <= 239) \/
  (sz = 4%nat /\ b0 = 240 /\ lo = 144) \/
  (sz = 4%nat /\ 241 <= b0 <= 244)).
Proof.
  unfold utf8_first, in_range.
  repeat match goal with
  | |- context [if ?c then _ else _] => destruct c eqn:?
  end; intros H; inversion H; subst;
  repeat match goal with
  | H : (_ && _)%bool = true |- _ => apply andb_true_iff in H as [? ?]
  | H : (_ <=? _) = true |- _ => apply Z.leb_le in H
  | H : (_ =? _) = true |- _ => apply Z.eqb_eq in H
  end; lia.
Qed.

Lemma filename_class_gt (r : Z) : 122 < r -> filename_class r = false.
Proof.
  intros H. unfold filename_class, in_range.
  repeat match goal with
  | |- context [?a <=? ?b] => destruct (Z.leb_spec a b)
  | |- context [?a =? ?b] => destruct (Z.eqb_spec a b)
  end; simpl; try reflexivity; lia.
Qed.

Lemma shiftl_land (b k m : Z) : 0 <= k -> 0 <= m ->
  Z.shiftl (Z.land b (Z.ones k)) m = (b mod 2 ^ k) * 2 ^ m.
Proof. intros Hk Hm. rewrite Z.shiftl_mul_pow2 by exact Hm. rewrite land_mod by exact Hk. reflexivity. Qed.

Ltac nonneg :=
  repeat first
    [ apply Z.lor_nonneg; split
    | apply Z.shiftl_nonneg
    | apply Z.land_nonneg; right; lia ].

(** A rune of the class [0-9A-Za-z-_.] is decoded from a single byte,
    the rune being that byte. *)
Lemma DecodeRune_class (s : string) (r : Z) (w : nat) :
  DecodeRune s = (r, w) -> filename_class r = true ->
  w = 1%nat /\ r = byte_at s 0.
Proof.
  unfold DecodeRune.
  pose proof (byte_at_nonneg s 1) as Hn1. pose proof (byte_at_nonneg s 2) as Hn2.
  pose proof (byte_at_nonneg s 3) as Hn3.
  destruct (byte_at s 0 <? 128) eqn:H0.
  { intros E _. inversion E. split; reflexivity. }
  destruct (utf8_first (byte_at s 0)) as [[[sz lo] hi]|] eqn:Hf.
  2: { intros E; inversion E; subst. vm_compute. discriminate. }
  apply utf8_first_spec in Hf as [Hhi Hf].
  destruct (String.length s <? sz)%nat.
  { intros E; inversion E; subst. vm_compute. discriminate. }
  destruct (negb (in_range lo hi (byte_at s 1))) eqn:H1.
  { intros E; inversion E; subst. vm_compute. discriminate. }
  apply negb_false_iff in H1. unfold in_range in H1.
  apply andb_true_iff in H1 as [H1a H1b]. apply Z.leb_le in H1a, H1b.
  destruct (sz =? 2)%nat eqn:Hs2.
  { intros E Hc; inversion E; subst. exfalso.
    apply Nat.eqb_eq in Hs2. subst sz.
    rewrite filename_class_gt in Hc; [discriminate|].
    eapply Z.lt_le_trans; [|apply lor_ge_l; nonneg].
    change 31 with (Z.ones 5). rewrite shiftl_land by lia.
    destruct Hf as [[_ Hb]|[[? _]|[[? _]|[[? _]|[? _]]]]]; [|lia..].
    rewrite (mod_low _ _ 192) by (reflexivity || lia). lia. }
  destruct (negb (in_range 128 191 (byte_at s 2))) eqn:H2.
  { intros E; inversion E; subst. vm_compute. discriminate. }
  destruct (sz =? 3)%nat eqn:Hs3.
  { intros E Hc; inversion E; subst. exfalso.
    apply Nat.eqb_eq in Hs3. subst sz.
    rewrite filename_class_gt in Hc; [discriminate|].
    destruct Hf as [[? _]|[[_ [Hb ->]]|[[_ Hb]|[[? _]|[? _]]]]]; try lia.
    - eapply Z.lt_le_trans; [|apply lor_ge_l; nonneg].
      eapply Z.lt_le_trans; [|apply lor_ge_r; nonneg].
      change 63 with (Z.ones 6). rewrite shiftl_land by lia.
      rewrite (mod_low _ _ 128) by (reflexivity || lia). lia.
    - eapply Z.lt_le_trans; [|apply lor_ge_l; nonneg].
      eapply Z.lt_le_trans; [|apply lor_ge_l; nonneg].
      change 15 with (Z.ones 4). rewrite shiftl_land by lia.
      rewrite (mod_low _ _ 224) by (reflexivity || lia). lia. }
  destruct (negb (in_range 128 191 (byte_at s 3))) eqn:H3.
  { intros E; inversion E; subst. vm_compute. discriminate. }
  intros E Hc; inversion E; subst. exfalso.
  rewrite filename_class_gt in Hc; [discriminate|].
  destruct Hf as [[-> _]|[[-> _]|[[-> _]|[[_ [Hb ->]]|[_ Hb]]]]]; try discriminate.
  - eapply Z.lt_le_trans; [|apply lor_ge_l; nonneg].
    eapply Z.lt_le_trans; [|apply lor_ge_l; nonneg].
    eapply Z.lt_le_trans; [|apply lor_ge_r; nonneg].
    change 63 with (Z.ones 6). rewrite shiftl_land by lia.
    rewrite (mod_low _ _ 128) by (reflexivity || lia). lia.
  - eapply Z.lt_le_trans; [|apply lor_ge_l; nonneg].
    eapply Z.lt_le_trans; [|apply lor_ge_l; nonneg].
    eapply Z.lt_le_trans; [|apply lor_ge_l; nonneg].
    change 7 with (Z.ones 3). rewrite shiftl_land by lia.
    rewrite (mod_low _ _ 240) by (reflexivity || lia). lia.
Qed.

Lemma replace_all_class (fuel : nat) (s : string) :
  Forall (fun c => filename_class (Z.of_nat (nat_of_ascii c)) = true)
         (list_ascii_of_string (replace_all fuel s)).
Proof.
  revert s. induction fuel as [|f IH]; intros s; simpl; [constructor|].
  destruct s as [|c t]; [constructor|].
  destruct (DecodeRune (String c t)) as [r w] eqn:E.
  destruct (filename_class r) eqn:Hc.
  - destruct (DecodeRune_class _ _ _ E Hc) as [-> Hr].
    rewrite byte_at_0 in Hr. subst r. simpl.
    replace (substring 0 0 t) with ""%string by (destruct t; reflexivity).
    constructor; [exact Hc | apply IH].
  - simpl. constructor; [reflexivity | apply IH].
Qed.

End FilenameFacts.

Module ItemFacts.
Import Duration ItemModel.

(** The upper bound of the lifetime is enforced on every path. *)
Lemma NewItemFromRequest_lifetime_le_max (r : Request) (maxSize maxLifetime : Z)
    (env : Env) (it : Item) :
  NewItemFromRequest r maxSize maxLifetime env = inl it ->
  Expires it - Created it <= maxLifetime.
Proof.
  unfold NewItemFromRequest.
  destruct (req_multipart_ok r); [|discriminate].
  destruct (req_file r) as [fh|]; [|discriminate].
  destruct (fh_Size fh >? maxSize); [discriminate|].
  destruct (fh_Size fh <=? 0); [discriminate|].
  destruct (env_random_key env) as [k|]; [|discriminate].
  destruct (String.eqb (fh_ContentType fh) ""); [discriminate|].
  destruct (req_time r) as [|c t].
  - destruct (req_owners r); [|discriminate]. intros H; inversion H; subst; simpl. lia.
  - destruct (ParseDuration (String c t)) as [plt|]; [|simpl; intros H; inversion H].
    destruct (plt >? maxLifetime) eqn:E; [simpl; intros H; inversion H|].
    rewrite Z.gtb_ltb in E. apply Z.ltb_ge in E.
    destruct (req_owners r); [|discriminate]. intros H; inversion H; subst; simpl. lia.
Qed.

End ItemFacts.

Module StoreFacts.
Import ItemModel StoreModel.

Lemma createID_loop_ok (n i : nat) gen get id :
  createID_loop n i gen get = inl id ->
  exists k, (i <= k < i + n)%nat /\ gen k = GenOk id /\ get id = KvNotFound /\
    forall j, (i <= j < k)%nat -> exists id', gen j = GenOk id' /\ get id' = KvFound.
Proof.
  revert i. induction n as [|n IH]; intros i H; simpl in H; [discriminate|].
  destruct (gen i) as [id0|] eqn:Eg; [|discriminate].
  destruct (get id0) eqn:Et; try discriminate.
  - destruct (IH _ H) as [k [Hk [Hg [Hn Hp]]]].
    exists k. split; [lia|]. split; [exact Hg|]. split; [exact Hn|].
    intros j Hj. destruct (Nat.eq_dec j i) as [->|Hne].
    + exists id0. split; assumption.
    + apply Hp. lia.
  - inversion H; subst. exists i. split; [lia|]. split; [exact Eg|]. split; [exact Et|].
    intros j Hj. lia.
Qed.

(** Effects that only touch the file of [id]. *)
Definition file_effect_of (id : string) (e : effect) : Prop :=
  match e with
  | EffInsert _ _ => False
  | EffCreate j | EffWrite j _ => j = id
  | EffCloseBody | EffCloseFile => True
  end.

Lemma fold_file_effects (id : string) (es : list effect) (st : StoreState) :
  Forall (file_effect_of id) es ->
  index (fold_left apply_effect es st) = index st /\
  forall j, j <> id -> blobs (fold_left apply_effect es st) !! j = blobs st !! j.
Proof.
  revert st. induction es as [|e es IH]; intros st H; simpl; [split; reflexivity|].
  inversion H as [|? ? He Hes]; subst.
  destruct (IH (apply_effect st e) Hes) as [Hi Hb].
  split.
  - rewrite Hi. destruct e; simpl in *; easy.
  - intros j Hj. rewrite Hb by exact Hj.
    destruct e; simpl in *; try reflexivity; subst; apply lookup_insert_ne; congruence.
Qed.

(** The shape of every effect list of [Put]: nothing, or the index
    insertion of the new id followed by effects on its file only. *)
Lemma Put_trace_shape st gen io i body :
  snd (Put st gen io i body) = [] \/
  exists id it rest, snd (Put st gen io i body) = EffInsert id it :: rest /\
                     Forall (file_effect_of id) rest.
Proof.
  unfold Put.
  destruct (createID gen (kv_get st)) as [id|e]; [|left; reflexivity].
  destruct (io_insert_ok io); simpl; [|left; reflexivity].
  right. exists id. eexists.
  destruct (io_create_ok io), (io_copy_fails_after io),
    (io_close_body_ok io), (io_close_file_ok io); simpl;
    eexists; (split; [reflexivity|]); repeat (apply List.Forall_cons; [simpl; auto|]);
    apply List.Forall_nil.
Qed.

Lemma crash_blob_has_index st gen io i body (k : nat) (id : string) :
  blobs st !! id = None ->
  blobs (crash_state st (snd (Put st gen io i body)) k) !! id <> None ->
  index (crash_state st (snd (Put st gen io i body)) k) !! id <> None.
Proof.
  unfold crash_state.
  destruct (Put_trace_shape st gen io i body) as [-> | [id0 [it [rest [-> Hr]]]]].
  - rewrite firstn_nil. simpl. congruence.
  - destruct k as [|k]; cbn [firstn fold_left]; [congruence|].
    assert (Hk : Forall (file_effect_of id0) (firstn k rest)).
    { apply Forall_take. exact Hr. }
    destruct (fold_file_effects id0 _ (apply_effect st (EffInsert id0 it)) Hk) as [Hi Hb].
    rewrite Hi. simpl. intros Hn Hs.
    destruct (decide (id = id0)) as [->|Hne].
    + rewrite lookup_insert_eq. discriminate.
    + rewrite Hb in Hs by exact Hne. simpl in Hs. contradiction.
Qed.

End StoreFacts.

Module DurationFacts.
Import Duration.

Lemma take_digits_spec (s ds rest : string) :
  take_digits s = (ds, rest) -> s = (ds ++ rest)%string /\ has_space ds = false.
Proof.
  revert ds rest. induction s as [|c s IH]; simpl; intros ds rest H.
  - inversion H; subst. split; reflexivity.
  - destruct (is_digit c) eqn:Ed.
    + destruct (take_digits s) as [ds' rest'] eqn:Et. inversion H; subst.
      destruct (IH _ _ eq_refl) as [-> Hs]. split; [reflexivity|].
      simpl. rewrite Hs, orb_false_r.
      destruct (Ascii.eqb c " "%char) eqn:Ec; [|reflexivity].
      apply Ascii.eqb_eq in Ec. subst c. discriminate.
    + inversion H; subst. split; reflexivity.
Qed.

Lemma prefix_split (u r : string) :
  String.prefix u r = true ->
  r = (u ++ substring (String.length u) (String.length r - String.length u) r)%string.
Proof.
  revert r. induction u as [|c u IH]; intros r H; simpl.
  - change (r = substring 0 (String.length r - 0) r). rewrite Nat.sub_0_r.
    clear. induction r as [|c r IH]; simpl; [reflexivity|]. f_equal. exact IH.
  - destruct r as [|c' r]; simpl in H; [discriminate|].
    destruct (ascii_dec c c'); [subst|discriminate]. simpl. f_equal. apply IH, H.
Qed.

Lemma match_groups_no_space (us : list string) (s : string) l :
  Forall (fun u => has_space u = false) us ->
  match_groups us s = Some l -> has_space s = false.
Proof.
  revert s l. induction us as [|u us IH]; intros s l Hus H; simpl in H.
  - destruct s; [reflexivity|discriminate].
  - inversion Hus as [|? ? Hu Hus']; subst.
    destruct (match_group u s) as [[ds rest]|] eqn:Eg.
    + destruct (match_groups us rest) as [l'|] eqn:Er.
      * unfold match_group in Eg.
        destruct (take_digits s) as [ds0 rest0] eqn:Et.
        destruct (take_digits_spec _ _ _ Et) as [-> Hds].
        destruct ds0; [discriminate|].
        destruct (String.prefix u rest0) eqn:Ep; [|discriminate].
        inversion Eg; subst ds rest.
        rewrite (prefix_split _ _ Ep), !has_space_app, Hds, Hu.
        simpl. exact (IH _ _ Hus' Er).
      * exact (IH _ _ Hus' H).
    + exact (IH _ _ Hus' H).
Qed.

Lemma ParseDuration_space (s : string) :
  has_space s = true -> ParseDuration s = inr ErrNoMatch.
Proof.
  intros Hs. unfold ParseDuration.
  destruct s as [|c t]; [reflexivity|].
  destruct (match_groups durationsOrder (String c t)) eqn:E; [|reflexivity].
  exfalso. rewrite (match_groups_no_space durationsOrder _ l) in Hs;
    [discriminate | repeat constructor | exact E].
Qed.

Lemma pretty_loop_keeps (us : list (Z * string)) (d : Z) (b : string) :
  has_space (trim_right_space b) = true ->
  has_space (trim_right_space (pretty_loop us d b)) = true.
Proof.
  revert d b. induction us as [|[v n] us IH]; intros d b Hb; simpl; [exact Hb|].
  destruct (v >? d); apply IH; [exact Hb|].
  apply has_space_trim_app, Hb.
Qed.

Lemma pretty_loop_prints (us : list (Z * string)) (d : Z) (b : string) :
  Forall (fun '(_, n) => exists c z, n = String c z /\ c <> " "%char) us ->
  (exists v n, In (v, n) us /\ v <= d) ->
  has_space (trim_right_space (pretty_loop us d b)) = true.
Proof.
  revert d b. induction us as [|[v0 n0] us IH]; intros d b Hn [v [n [Hin Hv]]]; [destruct Hin|].
  inversion Hn as [|? ? Hh Hn']; subst. destruct Hh as [c [z [-> Hc]]]. simpl.
  destruct (v0 >? d) eqn:E.
  - apply IH; [exact Hn'|]. exists v, n. split; [|exact Hv].
    destruct Hin as [Heq|Hin]; [|exact Hin].
    inversion Heq; subst. apply Z.gtb_lt in E. lia.
  - apply pretty_loop_keeps.
    rewrite !app_assoc_str. simpl.
    rewrite <- app_assoc_str. rewrite app_assoc_str. apply has_space_trim_word, Hc.
Qed.

End DurationFacts.

(* ===================================================================== *)
(* Claims                                                                *)
(* ===================================================================== *)

Module WebFacts.
Import ItemModel WebModel.

Lemma append_empty_r (s : string) : (s ++ "")%string = s.
Proof. induction s as [|c s IH]; simpl; congruence. Qed.

Lemma split_slash_aux_word (cur s rest : string) :
  no_slash s = true ->
  split_slash_aux cur (s ++ rest) = split_slash_aux (cur ++ s) rest.
Proof.
  revert cur. induction s as [|c s IH]; intros cur H; simpl.
  - rewrite append_empty_r. reflexivity.
  - simpl in H. apply andb_prop in H as [Hc Hs].
    destruct (Ascii.eqb c "/"%char); [discriminate|].
    rewrite IH by exact Hs. rewrite <- StrFacts.app_assoc_str. reflexivity.
Qed.

Lemma split_slash_aux_last (cur s : string) :
  no_slash s = true -> split_slash_aux cur s = [(cur ++ s)%string].
Proof.
  intros H. rewrite <- (append_empty_r s) at 1.
  rewrite split_slash_aux_word by exact H. reflexivity.
Qed.

(** The deletion URL [del/<id>/<key>] splits into its three parts. *)
Lemma split_slash_del (id key : string) :
  no_slash id = true -> no_slash key = true ->
  split_slash (trim_left_slash ("del/" ++ id ++ "/" ++ key)) = ["del"%string; id; key].
Proof.
  intros Hi Hk. unfold split_slash. simpl.
  rewrite split_slash_aux_word by exact Hi. simpl.
  rewrite split_slash_aux_last by exact Hk. reflexivity.
Qed.

Lemma bytes_length (s : string) : length (list_ascii_of_string s) = String.length s.
Proof. induction s as [|c s IH]; simpl; congruence. Qed.

Lemma bytes_inj (a b : string) : list_ascii_of_string a = list_ascii_of_string b -> a = b.
Proof.
  intros H. rewrite <- (string_of_list_ascii_of_string a), <- (string_of_list_ascii_of_string b), H.
  reflexivity.
Qed.

Lemma chunk_eq_spec (off w : nat) (a b : list ascii) :
  chunk_eq off w a b = true <-> forall i, (off <= i < off + w)%nat -> a !! i = b !! i.
Proof.
  unfold chunk_eq. rewrite bool_decide_eq_true. split.
  - intros H i Hi. pose proof (f_equal (fun l => l !! (i - off)%nat) H) as E. simpl in E.
    rewrite !lookup_take_lt, !lookup_drop in E by lia.
    replace (off + (i - off))%nat with i in E by lia. exact E.
  - intros H. apply list_eq. intros j. rewrite !lookup_take.
    destruct (decide (j < w)%nat); [|reflexivity]. rewrite !lookup_drop. apply H. lia.
Qed.

Lemma chunk_eq_refl (off w : nat) (a : list ascii) : chunk_eq off w a a = true.
Proof. unfold chunk_eq. apply bool_decide_eq_true_2. reflexivity. Qed.

(** Two different byte lists have a first differing position. *)
Lemma first_diff (a b : list ascii) : a <> b ->
  exists k, (forall i, (i < k)%nat -> a !! i = b !! i) /\ a !! k <> b !! k.
Proof.
  revert b. induction a as [|x a IH]; intros [|y b] Hne.
  - contradiction (Hne eq_refl).
  - exists 0%nat. split; [intros i Hi; lia|]. simpl. discriminate.
  - exists 0%nat. split; [intros i Hi; lia|]. simpl. discriminate.
  - destruct (decide (x = y)) as [->|Hxy].
    + destruct (IH b) as [k [Hp Hk]]; [congruence|].
      exists (S k). split; [|exact Hk]. intros [|i] Hi; [reflexivity|]. apply Hp. lia.
    + exists 0%nat. split; [intros i Hi; lia|]. simpl. congruence.
Qed.

Lemma diff_bounds (a b : list ascii) (n off k : nat) :
  length a = n -> length b = n -> (forall i, (i < off)%nat -> a !! i = b !! i) ->
  a !! k <> b !! k -> (off <= k < n)%nat.
Proof.
  intros Ha Hb Hp Hk. split.
  - destruct (decide (off <= k)%nat); [assumption|]. exfalso. apply Hk, Hp. lia.
  - destruct (decide (k < n)%nat); [assumption|]. exfalso. apply Hk.
    rewrite !lookup_ge_None_2 by lia. reflexivity.
Qed.

(** [bigloop] from offset [off], the bytes before [off] being equal:
    for equal lists it runs all [(rem - 1) / 8] word steps and the
    leftover step; for a first difference at [k] it stops at the word
    holding byte [k], or at the leftover step. *)
Lemma bigloop_spec (n : nat) (a b : list ascii) :
  length a = n -> length b = n -> (8 <= n)%nat ->
  forall fuel off rem, (off + rem = n)%nat -> (rem < 8 * fuel)%nat ->
  (forall i, (i < off)%nat -> a !! i = b !! i) ->
  (a = b -> bigloop fuel off rem a b = (true, (rem - 1) / 8 + 1)%nat) /\
  (forall k, (forall i, (i < k)%nat -> a !! i = b !! i) -> a !! k <> b !! k ->
     bigloop fuel off rem a b = (false, Nat.min ((k - off) / 8) ((rem - 1) / 8) + 1)%nat).
Proof.
  intros Ha Hb Hn fuel. induction fuel as [|f IH]; intros off rem Hr Hf Hp; [lia|].
  cbn [bigloop]. destruct (Nat.leb_spec rem 8) as [Hle|Hgt].
  - rewrite (Nat.div_small (rem - 1) 8) by lia. split.
    + intros <-. rewrite chunk_eq_refl. reflexivity.
    + intros k Hpk Hk. destruct (diff_bounds a b n off k Ha Hb Hp Hk) as [Hk1 Hk2].
      replace (Nat.min ((k - off) / 8) 0 + 1)%nat with 1%nat by lia.
      destruct (chunk_eq (off + rem - 8) 8 a b) eqn:Ec; [|reflexivity].
      exfalso. apply Hk. apply (proj1 (chunk_eq_spec _ _ a b) Ec). lia.
  - destruct (chunk_eq off 8 a b) eqn:Ec.
    + assert (Hp' : forall i, (i < off + 8)%nat -> a !! i = b !! i).
      { intros i Hi. destruct (decide (i < off)%nat); [apply Hp; lia|].
        apply (proj1 (chunk_eq_spec _ _ a b) Ec). lia. }
      destruct (IH (off + 8)%nat (rem - 8)%nat ltac:(lia) ltac:(lia) Hp') as [IH1 IH2].
      replace ((rem - 1) / 8)%nat with (S ((rem - 8 - 1) / 8)).
      2:{ replace (rem - 1)%nat with (1 * 8 + (rem - 8 - 1))%nat by lia.
          rewrite Nat.div_add_l by lia. lia. }
      split.
      * intros E. rewrite (IH1 E). f_equal.
      * intros k Hpk Hk. rewrite (IH2 k Hpk Hk).
        assert (Hk8 : (off + 8 <= k)%nat).
        { destruct (decide (off + 8 <= k)%nat); [assumption|]. exfalso. apply Hk, Hp'. lia. }
        replace ((k - off) / 8)%nat with (S ((k - (off + 8)) / 8)).
        2:{ replace (k - off)%nat with (1 * 8 + (k - (off + 8)))%nat by lia.
            rewrite Nat.div_add_l by lia. lia. }
        f_equal; lia.
    + split.
      * intros <-. rewrite chunk_eq_refl in Ec. discriminate.
      * intros k Hpk Hk. destruct (diff_bounds a b n off k Ha Hb Hp Hk) as [Hk1 Hk2].
        assert (Hk8 : (k < off + 8)%nat).
        { destruct (decide (k < off + 8)%nat); [assumption|]. exfalso.
          assert (chunk_eq off 8 a b = true) by (apply chunk_eq_spec; intros i Hi; apply Hpk; lia).
          congruence. }
        rewrite (Nat.div_small (k - off) 8) by lia. reflexivity.
Qed.

Lemma hugeloop_result (n : nat) (a b : list ascii) :
  length a = n -> length b = n -> (8 <= n)%nat ->
  forall fuel off rem, (off + rem = n)%nat -> (rem < 64 * fuel)%nat ->
  (forall i, (i < off)%nat -> a !! i = b !! i) ->
  fst (hugeloop fuel off rem a b) = bool_decide (a = b).
Proof.
  intros Ha Hb Hn fuel. induction fuel as [|f IH]; intros off rem Hr Hf Hp; [lia|].
  cbn [hugeloop]. destruct (Nat.ltb_spec rem 64) as [Hlt|Hge].
  - destruct (bigloop_spec n a b Ha Hb Hn (S rem) off rem Hr ltac:(lia) Hp) as [H1 H2].
    destruct (decide (a = b)) as [E|E].
    + rewrite (H1 E), bool_decide_eq_true_2 by exact E. reflexivity.
    + destruct (first_diff a b E) as [k [Hpk Hk]].
      rewrite (H2 k Hpk Hk), bool_decide_eq_false_2 by exact E. reflexivity.
  - destruct (chunk_eq off 64 a b) eqn:Ec.
    + assert (Hp' : forall i, (i < off + 64)%nat -> a !! i = b !! i).
      { intros i Hi. destruct (decide (i < off)%nat); [apply Hp; lia|].
        apply (proj1 (chunk_eq_spec _ _ a b) Ec). lia. }
      pose proof (IH (off + 64)%nat (rem - 64)%nat ltac:(lia) ltac:(lia) Hp') as IH'.
      destruct (hugeloop f (off + 64) (rem - 64) a b) as [r c]. exact IH'.
    + simpl. symmetry. apply bool_decide_eq_false_2. intros <-.
      rewrite chunk_eq_refl in Ec. discriminate.
Qed.

(** [memeqbody] decides equality of byte lists of equal length. *)
Lemma memeqbody_result (a b : list ascii) :
  length a = length b -> fst (memeqbody a b) = bool_decide (a = b).
Proof.
  intros Hl. unfold memeqbody. destruct (Nat.ltb_spec (length a) 8).
  - destruct (Nat.eqb_spec (length a) 0) as [H0|H0]; [|reflexivity].
    destruct a; [|discriminate]. destruct b; [|discriminate].
    rewrite bool_decide_eq_true_2; reflexivity.
  - apply (hugeloop_result (length a)); intros; lia.
Qed.

(** For 8 to 63 bytes, [memeqbody] compares words from the front and
    stops at the word holding the first difference. *)
Lemma memeqbody_words (a b : list ascii) (n : nat) :
  length a = n -> length b = n -> (8 <= n < 64)%nat ->
  (a = b -> memeqbody a b = (true, (n - 1) / 8 + 1)%nat) /\
  (forall k, (forall i, (i < k)%nat -> a !! i = b !! i) -> a !! k <> b !! k ->
     memeqbody a b = (false, Nat.min (k / 8) ((n - 1) / 8) + 1)%nat).
Proof.
  intros Ha Hb Hn. unfold memeqbody. rewrite Ha.
  destruct (Nat.ltb_spec n 8); [lia|]. cbn [hugeloop].
  destruct (Nat.ltb_spec n 64); [|lia].
  destruct (bigloop_spec n a b Ha Hb ltac:(lia) (S n) 0 n ltac:(lia) ltac:(lia)
              ltac:(intros; lia)) as [H1 H2].
  split; [exact H1|]. intros k Hpk Hk. rewrite (H2 k Hpk Hk), Nat.sub_0_r. reflexivity.
Qed.

Lemma string_ne_eqb (a b : string) : fst (string_ne a b) = negb (String.eqb a b).
Proof.
  unfold string_ne. destruct (Nat.eqb_spec (String.length a) (String.length b)) as [Hl|Hl].
  - pose proof (memeqbody_result (list_ascii_of_string a) (list_ascii_of_string b)) as H.
    rewrite !bytes_length in H. specialize (H Hl).
    destruct (memeqbody (list_ascii_of_string a) (list_ascii_of_string b)) as [eq c].
    simpl in *. subst eq.
    destruct (String.eqb_spec a b) as [->|Hne].
    + rewrite bool_decide_eq_true_2 by reflexivity. reflexivity.
    + rewrite bool_decide_eq_false_2; [reflexivity|]. intros E. apply Hne, bytes_inj, E.
  - simpl. destruct (String.eqb_spec a b) as [->|]; [contradiction (Hl eq_refl)|reflexivity].
Qed.

Lemma string_ne_cost_len (a b : string) :
  String.length a <> String.length b -> string_ne a b = (true, 0%nat).
Proof.
  intros H. unfold string_ne.
  destruct (Nat.eqb_spec (String.length a) (String.length b)); [contradiction|reflexivity].
Qed.

Lemma string_ne_cost_small (a b : string) :
  String.length a = String.length b -> (1 <= String.length b < 8)%nat ->
  snd (string_ne a b) = 1%nat.
Proof.
  intros Hl Hn. unfold string_ne, memeqbody. rewrite !bytes_length, Hl, Nat.eqb_refl.
  destruct (Nat.ltb_spec (String.length b) 8); [|lia].
  destruct (Nat.eqb_spec (String.length b) 0); [lia|]. reflexivity.
Qed.

Lemma string_ne_cost_words (a b : string) (n : nat) :
  String.length a = n -> String.length b = n -> (8 <= n < 64)%nat ->
  (a = b -> snd (string_ne a b) = ((n - 1) / 8 + 1)%nat) /\
  (forall k, (forall i, (i < k)%nat -> list_ascii_of_string a !! i = list_ascii_of_string b !! i) ->
     list_ascii_of_string a !! k <> list_ascii_of_string b !! k ->
     snd (string_ne a b) = (Nat.min (k / 8) ((n - 1) / 8) + 1)%nat).
Proof.
  intros Ha Hb Hn. unfold string_ne. rewrite Ha, Hb, Nat.eqb_refl.
  destruct (memeqbody_words (list_ascii_of_string a) (list_ascii_of_string b) n)
    as [H1 H2]; [rewrite bytes_length; exact Ha|rewrite bytes_length; exact Hb|exact Hn|].
  split.
  - intros <-. rewrite H1 by reflexivity. reflexivity.
  - intros k Hp Hk. rewrite (H2 k Hp Hk). reflexivity.
Qed.

End WebFacts.

Module Claims.
Import Duration DurationFacts ItemModel FilenameFacts StoreModel StoreFacts
  RpcModel WebModel WebFacts.

(** C6 (counterexample): [parse_duration(pretty_duration(d)) == d] fails
    already for d = 1 s: [PrettyDuration] writes "1 second", which is not
    in the duration grammar, so [ParseDuration] rejects it. *)
Lemma C6_roundtrip_fails_1s :
  PrettyDuration time_second = "1 second"%string /\
  ParseDuration (PrettyDuration time_second) = inr ErrNoMatch /\
  ParseDuration (PrettyDuration time_second) <> inl time_second.
Proof. vm_compute. split; [reflexivity|split; [reflexivity|discriminate]]. Qed.

(** C6 (amended): for every duration d of at least 1 s, the human-readable
    form [PrettyDuration d] (words such as "1 hour 5 minutes") contains a
    space and is never accepted by [ParseDuration]: parsing it fails with
    [ErrNoMatch]. *)
Theorem C6_pretty_not_parseable (d : Z) :
  time_second <= d -> ParseDuration (PrettyDuration d) = inr ErrNoMatch.
Proof.
  intros Hd. apply ParseDuration_space. unfold PrettyDuration.
  apply pretty_loop_prints.
  - unfold pretty_units. simpl.
    repeat (constructor; [hnf; refine (ex_intro _ _ (ex_intro _ _ (conj eq_refl _))); discriminate |]).
    constructor.
  - exists time_second, "second"%string. split; [|exact Hd].
    unfold pretty_units. simpl. tauto.
Qed.

Lemma C6_pretty_not_parseable_witness :
  time_second <= timeDay + 1 /\
  ParseDuration (PrettyDuration (timeDay + 1)) = inr ErrNoMatch.
Proof.
  split; [apply Z.leb_le; vm_compute; reflexivity|].
  apply (C6_pretty_not_parseable (timeDay + 1)).
  apply Z.leb_le; vm_compute; reflexivity.
Defined.

(** C9: for every input filename f, every byte of the sanitized filename
    [ReplaceAllFilename (Base (Clean f))] is in [0-9A-Za-z-_.]; in
    particular none is the path separator '/'. *)
Theorem C9_sanitized_filename_charset (f : string) :
  Forall (fun c => filename_class (Z.of_nat (nat_of_ascii c)) = true /\ c <> "/"%char)
         (list_ascii_of_string (sanitize_filename f)).
Proof.
  unfold sanitize_filename, ReplaceAllFilename.
  eapply Forall_impl; [apply replace_all_class|].
  intros c Hc. split; [exact Hc|]. intros ->. discriminate Hc.
Qed.

(** An upload of "hi.txt" (5 bytes, text/plain) from 127.0.0.1 with the
    form field "time" set to [lifetime], 1 MiB and 24 h limits. *)
Definition upload_with_time (lifetime : string) : Item + item_error :=
  NewItemFromRequest
    (mkRequest true (Some (mkFileHeader "hi.txt" 5 "text/plain")) "" lifetime
       (Some [(RemoteAddr, "127.0.0.1"%string)]))
    1048576 (24 * time_hour)
    (mkEnv 1700000000000000000 (Some "3xYvQnV1fK8sWz"%string)).

(** C7 (code_bug): the upload path rejects a lifetime above the maximum
    but accepts any parsed lifetime below it, including zero: with
    time = "0s" the stored Item has [Expires = Created], violating
    [expires > created]; and since [ParseDuration] multiplies with int64
    wrap-around, time = "9223372036854775807s" yields an Item expiring
    one second before its creation. *)
Theorem C7_zero_lifetime_accepted :
  (exists it, upload_with_time "0s" = inl it /\ Expires it = Created it) /\
  (exists it, upload_with_time "9223372036854775807s" = inl it /\
              Expires it = Created it - time_second).
Proof.
  split; eexists; split; [vm_compute; reflexivity | vm_compute; reflexivity
                         | vm_compute; reflexivity | vm_compute; reflexivity].
Qed.

(** An empty store, an id generator that always yields "abc", and I/O
    that succeeds throughout. *)
Definition st0 : StoreState := mkStoreState ∅ ∅.

Definition gen_abc : nat -> gen_result := fun _ => GenOk "abc".

Definition put_all_ok : PutIO := mkPutIO true true None true true.

(** C1 (counterexample): [Put] inserts the index entry BEFORE it creates
    the blob.  A crash after the first effect leaves the index entry of
    "abc" without a blob; an [os.Create] failure returns an error and
    leaves the same state behind. *)
Lemma C1_index_before_blob :
  fst (Put st0 gen_abc put_all_ok empty_item "hello") = inl "abc"%string /\
  (exists it, snd (Put st0 gen_abc put_all_ok empty_item "hello") =
     [EffInsert "abc" it; EffCreate "abc"; EffWrite "abc" "hello"; EffCloseBody; EffCloseFile]) /\
  index (crash_state st0 (snd (Put st0 gen_abc put_all_ok empty_item "hello")) 1) !! "abc"%string <> None /\
  blobs (crash_state st0 (snd (Put st0 gen_abc put_all_ok empty_item "hello")) 1) !! "abc"%string = None /\
  snd (run_put st0 gen_abc (mkPutIO true false None true true) empty_item "hello") = inr ErrFileCreate /\
  index (fst (run_put st0 gen_abc (mkPutIO true false None true true) empty_item "hello")) !! "abc"%string <> None /\
  blobs (fst (run_put st0 gen_abc (mkPutIO true false None true true) empty_item "hello")) !! "abc"%string = None.
Proof.
  split; [vm_compute; reflexivity|].
  split; [eexists; vm_compute; reflexivity|].
  split; [vm_compute; discriminate|].
  split; [vm_compute; reflexivity|].
  split; [vm_compute; reflexivity|].
  split; [vm_compute; discriminate|].
  vm_compute; reflexivity.
Qed.

(** C1 (amended): a successful [Put] first mints a free id with
    [createID], then inserts the index entry for it, then creates the
    blob [<storage>/<id>], copies the body into it and closes both files.
    For every [Put], successful or not, and every crash point [k], a blob
    that was absent before and is present after the crash has its index
    entry; the same holds for the state [Put] leaves when it returns,
    whatever it returns.  So a crash or failure can leave an index entry
    without (or with an incomplete) blob, never a new blob without its
    index entry. *)
Theorem C1_put_index_then_blob st gen io i body :
  (forall id tr, Put st gen io i body = (inl id, tr) ->
     createID gen (kv_get st) = inl id /\ index st !! id = None /\
     exists it, ID it = id /\
       tr = [EffInsert id it; EffCreate id; EffWrite id body; EffCloseBody; EffCloseFile]) /\
  (forall (k : nat) (j : string), blobs st !! j = None ->
     blobs (crash_state st (snd (Put st gen io i body)) k) !! j <> None ->
     index (crash_state st (snd (Put st gen io i body)) k) !! j <> None) /\
  (forall j : string, blobs st !! j = None ->
     blobs (fst (run_put st gen io i body)) !! j <> None ->
     index (fst (run_put st gen io i body)) !! j <> None).
Proof.
  split; [|split].
  - intros id tr H.
    assert (Hc : createID gen (kv_get st) = inl id).
    { unfold Put in H. destruct (createID gen (kv_get st)) as [id0|e]; [|discriminate].
      destruct (io_insert_ok io), (io_create_ok io), (io_copy_fails_after io),
        (io_close_body_ok io), (io_close_file_ok io); simpl in H; try discriminate.
      inversion H. reflexivity. }
    split; [exact Hc|]. split.
    + destruct (createID_loop_ok _ _ _ _ _ Hc) as [k [_ [_ [Hn _]]]].
      unfold kv_get in Hn. destruct (index st !! id); [discriminate|reflexivity].
    + unfold Put in H. rewrite Hc in H.
      destruct (io_insert_ok io), (io_create_ok io), (io_copy_fails_after io),
        (io_close_body_ok io), (io_close_file_ok io); simpl in H; try discriminate.
      inversion H; subst. eexists; split; [|reflexivity]. reflexivity.
  - intros k j Hj. exact (crash_blob_has_index st gen io i body k j Hj).
  - intros j Hj. unfold run_put.
    pose proof (crash_blob_has_index st gen io i body
                  (length (snd (Put st gen io i body))) j Hj) as H.
    destruct (Put st gen io i body) as [r tr]. exact H.
Qed.

(** An item whose deletion key has 33 characters, the length of a base58
    encoding of 24 random bytes. *)
Definition item_key33 : Item :=
  mkItem "q" "5HueCGU8rMjxEXxiPuD5BDku4MkFqeZyd" false "f" "text/plain" 0 10 [].

(** C2 (counterexample): the key check is Go's [!=] on strings, which
    the runtime answers by comparing 8-byte words from the front and
    returning at the first unequal one: two wrong keys of the right
    length are both refused with 403, but the one that differs in its
    first byte is rejected after 1 compare step, the one that differs in
    its last byte after 5. *)
Lemma C2_key_compare_short_circuits :
  handleDeletion "GET" "del/q/XHueCGU8rMjxEXxiPuD5BDku4MkFqeZyd" (GetOk item_key33) true =
    (403, [CallGet "q"], Some 1%nat) /\
  handleDeletion "GET" "del/q/5HueCGU8rMjxEXxiPuD5BDku4MkFqeZyX" (GetOk item_key33) true =
    (403, [CallGet "q"], Some 5%nat).
Proof. split; vm_compute; reflexivity. Qed.

(** C2 (amended): for a deletion request [del/<id>/<key>] of an existing
    Item, the key is checked with Go's ordinary string inequality: it is
    refused (403) exactly when it differs from the Item's deletion key,
    and an equal key leads to the store's [Delete].  The compare steps of
    the runtime: none for a key of another length; one for keys of 1 to
    7 bytes; for keys of 8 to 63 bytes (every base58 deletion key), one
    per 8-byte word from the front up to the word holding the first
    differing byte [k], so [min (k / 8) ((n - 1) / 8) + 1] steps, which
    depend on the key bytes, and [(n - 1) / 8 + 1] steps for the right
    key. *)
Theorem C2_deletion_key_check (id key : string) (item : Item) (delete_ok : bool) :
  no_slash id = true -> no_slash key = true ->
  let '(code, calls, cost) :=
    handleDeletion "GET" ("del/" ++ id ++ "/" ++ key) (GetOk item) delete_ok in
  (code = 403 <-> DeletionKey item <> key) /\
  (DeletionKey item = key -> calls = [CallGet id; CallDelete (ID item)]) /\
  (String.length (DeletionKey item) <> String.length key -> cost = Some 0%nat) /\
  (String.length (DeletionKey item) = String.length key ->
     (1 <= String.length key < 8)%nat -> cost = Some 1%nat) /\
  (String.length (DeletionKey item) = String.length key ->
     (8 <= String.length key < 64)%nat -> DeletionKey item = key ->
     cost = Some ((String.length key - 1) / 8 + 1)%nat) /\
  (String.length (DeletionKey item) = String.length key ->
     (8 <= String.length key < 64)%nat ->
     forall k : nat,
       (forall i, (i < k)%nat ->
          list_ascii_of_string (DeletionKey item) !! i = list_ascii_of_string key !! i) ->
       list_ascii_of_string (DeletionKey item) !! k <> list_ascii_of_string key !! k ->
       cost = Some (Nat.min (k / 8) ((String.length key - 1) / 8) + 1)%nat).
Proof.
  intros Hi Hk. unfold handleDeletion.
  replace (negb (String.eqb "GET" "GET")) with false by reflexivity.
  rewrite split_slash_del by assumption. cbv iota beta.
  pose proof (string_ne_eqb (DeletionKey item) key) as Hq.
  pose proof (string_ne_cost_len (DeletionKey item) key) as C0.
  pose proof (string_ne_cost_small (DeletionKey item) key) as C1.
  pose proof (string_ne_cost_words (DeletionKey item) key (String.length key)) as C2.
  destruct (string_ne (DeletionKey item) key) as [ne cost]. simpl in Hq, C1, C2.
  assert (HC : (String.length (DeletionKey item) <> String.length key -> cost = 0%nat) /\
    (String.length (DeletionKey item) = String.length key ->
       (1 <= String.length key < 8)%nat -> cost = 1%nat) /\
    (String.length (DeletionKey item) = String.length key ->
       (8 <= String.length key < 64)%nat -> DeletionKey item = key ->
       cost = ((String.length key - 1) / 8 + 1)%nat) /\
    (String.length (DeletionKey item) = String.length key ->
       (8 <= String.length key < 64)%nat ->
       forall k : nat,
         (forall i, (i < k)%nat ->
            list_ascii_of_string (DeletionKey item) !! i = list_ascii_of_string key !! i) ->
         list_ascii_of_string (DeletionKey item) !! k <> list_ascii_of_string key !! k ->
         cost = (Nat.min (k / 8) ((String.length key - 1) / 8) + 1)%nat)).
  { split; [intros H; injection (C0 H); intros; assumption|].
    split; [exact C1|].
    split; [intros Hl Hn; exact (proj1 (C2 Hl eq_refl Hn))|].
    intros Hl Hn. exact (proj2 (C2 Hl eq_refl Hn)). }
  clear C0 C1 C2. destruct HC as [H0 [H1 [H2 H3]]].
  destruct (String.eqb_spec (DeletionKey item) key) as [Heq|Hneq]; simpl in Hq; subst ne.
  - destruct delete_ok; cbn [negb]; cbv iota beta;
      (split; [split; [discriminate|intros E; contradiction (E Heq)]|]);
      (split; [intros _; reflexivity|]);
      (split; [intros E; rewrite (H0 E); reflexivity|]);
      (split; [intros E Hn; rewrite (H1 E Hn); reflexivity|]);
      (split; [intros E Hn He; rewrite (H2 E Hn He); reflexivity|]);
      intros E Hn k Hp Hd; exfalso; apply Hd; rewrite Heq; reflexivity.
  - cbn [negb]; cbv iota beta.
    split; [split; [intros _; exact Hneq|intros _; reflexivity]|].
    split; [intros E; contradiction|].
    split; [intros E; rewrite (H0 E); reflexivity|].
    split; [intros E Hn; rewrite (H1 E Hn); reflexivity|].
    split; [intros E Hn He; contradiction|].
    intros E Hn k Hp Hd. rewrite (H3 E Hn k Hp Hd). reflexivity.
Qed.

Lemma C2_deletion_key_check_witness :
  no_slash "q" = true /\ no_slash "5HueCGU8rMjxEXxiPuD5BDku4MkFqeZyX" = true /\
  let '(code, calls, cost) :=
    handleDeletion "GET" ("del/" ++ "q" ++ "/" ++ "5HueCGU8rMjxEXxiPuD5BDku4MkFqeZyX")
      (GetOk item_key33) true in
  (code = 403 <-> DeletionKey item_key33 <> "5HueCGU8rMjxEXxiPuD5BDku4MkFqeZyX"%string) /\
  (DeletionKey item_key33 = "5HueCGU8rMjxEXxiPuD5BDku4MkFqeZyX"%string ->
     calls = [CallGet "q"; CallDelete (ID item_key33)]) /\
  (String.length (DeletionKey item_key33) <> String.length "5HueCGU8rMjxEXxiPuD5BDku4MkFqeZyX" ->
     cost = Some 0%nat) /\
  (String.length (DeletionKey item_key33) = String.length "5HueCGU8rMjxEXxiPuD5BDku4MkFqeZyX" ->
     (1 <= String.length "5HueCGU8rMjxEXxiPuD5BDku4MkFqeZyX" < 8)%nat -> cost = Some 1%nat) /\
  (String.length (DeletionKey item_key33) = String.length "5HueCGU8rMjxEXxiPuD5BDku4MkFqeZyX" ->
     (8 <= String.length "5HueCGU8rMjxEXxiPuD5BDku4MkFqeZyX" < 64)%nat ->
     DeletionKey item_key33 = "5HueCGU8rMjxEXxiPuD5BDku4MkFqeZyX"%string ->
     cost = Some ((String.length "5HueCGU8rMjxEXxiPuD5BDku4MkFqeZyX" - 1) / 8 + 1)%nat) /\
  (String.length (DeletionKey item_key33) = String.length "5HueCGU8rMjxEXxiPuD5BDku4MkFqeZyX" ->
     (8 <= String.length "5HueCGU8rMjxEXxiPuD5BDku4MkFqeZyX" < 64)%nat ->
     forall k : nat,
       (forall i, (i < k)%nat ->
          list_ascii_of_string (DeletionKey item_key33) !! i =
          list_ascii_of_string "5HueCGU8rMjxEXxiPuD5BDku4MkFqeZyX" !! i) ->
       list_ascii_of_string (DeletionKey item_key33) !! k <>
       list_ascii_of_string "5HueCGU8rMjxEXxiPuD5BDku4MkFqeZyX" !! k ->
       cost = Some (Nat.min (k / 8) ((String.length "5HueCGU8rMjxEXxiPuD5BDku4MkFqeZyX" - 1) / 8) + 1)%nat).
Proof.
  split; [reflexivity|]. split; [reflexivity|].
  apply (C2_deletion_key_check "q" "5HueCGU8rMjxEXxiPuD5BDku4MkFqeZyX" item_key33 true);
    reflexivity.
Defined.

(** A store holding item "abc" with its blob. *)
Definition st_abc : StoreState :=
  mkStoreState (<["abc" := empty_item]> ∅) (<["abc" := "hi"]> ∅).

(** C3 (counterexample): deleting "abc" twice: the first [Delete]
    succeeds, the second fails with the KV store's not-found error. *)
Lemma C3_second_delete_fails :
  snd (Delete st_abc "abc") = inl tt /\
  snd (Delete (fst (Delete st_abc "abc")) "abc") = inr ErrKvNotFound.
Proof. split; vm_compute; reflexivity. Qed.

(** C3 (amended): [Delete] is not idempotent: with the index entry
    absent it fails with the not-found error and changes nothing; with
    the entry present but the blob absent it removes the entry and fails
    with the file-removal error; with both present it succeeds and
    removes both; and a second [Delete] of the same id, after any first
    one, fails with the not-found error. *)
Theorem C3_delete_absent_errors (st : StoreState) (id : string) :
  (index st !! id = None -> Delete st id = (st, inr ErrKvNotFound)) /\
  (forall it, index st !! id = Some it -> blobs st !! id = None ->
     Delete st id = (mkStoreState (delete id (index st)) (blobs st), inr ErrRemove)) /\
  (forall it data, index st !! id = Some it -> blobs st !! id = Some data ->
     Delete st id = (mkStoreState (delete id (index st)) (delete id (blobs st)), inl tt)) /\
  Delete (fst (Delete st id)) id = (fst (Delete st id), inr ErrKvNotFound).
Proof.
  unfold Delete.
  split; [intros ->; reflexivity|].
  split; [intros it -> ->; reflexivity|].
  split; [intros it data -> ->; reflexivity|].
  destruct (index st !! id) as [it|] eqn:Ei; simpl; [|rewrite Ei; reflexivity].
  destruct (blobs st !! id); simpl; rewrite lookup_delete_eq; reflexivity.
Qed.

(** C4 (code_bug): with the parent context [context.Background()], as
    every caller passes it, a reply that comes after the 3 s deadline, or
    never, makes [call] return the nil error: the timeout branch returns
    the parent's [ctx.Err()], although the timeout context's own error is
    [context.DeadlineExceeded]. *)
Theorem C4_deadline_returns_nil (tr : Z) (e : option err_kind) :
  rpc_timeout < tr ->
  call Background (Some (tr, e)) = [None] /\
  call Background None = [None] /\
  timeout_err Background = Some DeadlineExceeded.
Proof.
  intros H. unfold call, timeout_done_at. simpl.
  destruct (Z.ltb_spec tr rpc_timeout); [lia|].
  destruct (Z.ltb_spec rpc_timeout tr); [|lia].
  split; [|split]; reflexivity.
Qed.

Lemma C4_deadline_returns_nil_witness :
  rpc_timeout < 5000 /\
  call Background (Some (5000, None)) = [None] /\
  call Background None = [None] /\
  timeout_err Background = Some DeadlineExceeded.
Proof.
  split; [apply Z.ltb_lt; vm_compute; reflexivity|].
  apply (C4_deadline_returns_nil 5000 None).
  apply Z.ltb_lt; vm_compute; reflexivity.
Defined.

(** C5 (code_bug): [createID] asks the index with
    [s.bh.Get(id, Item{})], whose gob decoding into the non-pointer
    [Item{}] fails for every id that is present.  So against the store
    the loop never retries: its result is decided by the first generated
    candidate (a free one is returned, a taken one makes it fail with the
    KV error), it never fails with "failed to calculate a free ID", and a
    [Put] whose first candidate is taken fails with that error without
    any effect. *)
Theorem C5_createID_taken_fails (st : StoreState) (gen : nat -> gen_result) :
  createID gen (kv_get st) =
    match gen 0%nat with
    | GenErr => inr ErrGenerator
    | GenOk id => match index st !! id with Some _ => inr ErrKv | None => inl id end
    end /\
  createID gen (kv_get st) <> inr ErrNoFreeID /\
  (forall id io i body, gen 0%nat = GenOk id -> is_Some (index st !! id) ->
     Put st gen io i body = (inr ErrKv, [])).
Proof.
  assert (H : createID gen (kv_get st) =
    match gen 0%nat with
    | GenErr => inr ErrGenerator
    | GenOk id => match index st !! id with Some _ => inr ErrKv | None => inl id end
    end).
  { unfold createID. cbn [createID_loop]. destruct (gen 0%nat) as [id|]; [|reflexivity].
    unfold kv_get. destruct (index st !! id); reflexivity. }
  split; [exact H|]. split.
  - rewrite H. destruct (gen 0%nat) as [id|]; [|discriminate].
    destruct (index st !! id); discriminate.
  - intros id io i body Hg [it Hi]. unfold Put. rewrite H, Hg, Hi. reflexivity.
Qed.

(** C8: for a GET of an existing Item with a parseable If-Modified-Since
    time [t], the status is 304 exactly when [Created < t < Expires]; and
    with [t = Created] the file is served with status 200. *)
Theorem C8_conditional_get_strict (reqId : string) (item : Item) (t : Z) (getfile_ok : bool) :
  (status (fst (handleRequest "GET" reqId (Some t) (GetOk item) getfile_ok)) = 304 <->
     Created item < t < Expires item) /\
  fst (handleRequest "GET" reqId (Some (Created item)) (GetOk item) true) = mkResponse 200 true.
Proof.
  unfold handleRequest, hasClientCachedRequest.
  replace (negb (String.eqb "GET" "GET")) with false by reflexivity.
  rewrite !Z.gtb_ltb, Z.ltb_irrefl. simpl. split.
  - destruct (Z.ltb_spec (Created item) t), (Z.ltb_spec t (Expires item)); simpl;
      destruct getfile_ok, (BurnAfterReading item); simpl;
      split; intros; try reflexivity; try discriminate; lia.
  - destruct (BurnAfterReading item); reflexivity.
Qed.

(** C10: for a GET of a burn-after-reading Item whose If-Modified-Since
    check succeeds, the handler answers 304 without a body and then
    issues the store's [Delete]; the [Delete] is issued exactly when the
    cache check succeeds or [GetFile] succeeds, so only a [GetFile]
    failure skips the burn. *)
Theorem C10_burn_on_not_modified (reqId : string) (item : Item) (ims : option Z) (getfile_ok : bool) :
  BurnAfterReading item = true ->
  (hasClientCachedRequest ims item = true ->
     handleRequest "GET" reqId ims (GetOk item) getfile_ok =
       (mkResponse 304 false, [CallGet reqId; CallDelete (ID item)])) /\
  (In (CallDelete (ID item)) (snd (handleRequest "GET" reqId ims (GetOk item) getfile_ok)) <->
     hasClientCachedRequest ims item = true \/ getfile_ok = true).
Proof.
  intros Hb. unfold handleRequest.
  replace (negb (String.eqb "GET" "GET")) with false by reflexivity.
  cbv iota beta. rewrite Hb.
  destruct (hasClientCachedRequest ims item), getfile_ok; simpl;
    (split; [intros H; try reflexivity; discriminate H|]);
    split; intros H; intuition congruence.
Qed.

(** A burn-after-reading item created at 0 and expiring at 10. *)
Definition item_burn : Item := mkItem "q" "k" true "f" "text/plain" 0 10 [].

Lemma C10_burn_on_not_modified_witness :
  BurnAfterReading item_burn = true /\
  (hasClientCachedRequest (Some 5) item_burn = true ->
     handleRequest "GET" "q" (Some 5) (GetOk item_burn) false =
       (mkResponse 304 false, [CallGet "q"; CallDelete (ID item_burn)])) /\
  (In (CallDelete (ID item_burn)) (snd (handleRequest "GET" "q" (Some 5) (GetOk item_burn) false)) <->
     hasClientCachedRequest (Some 5) item_burn = true \/ false = true).
Proof.
  split; [reflexivity|].
  apply (C10_burn_on_not_modified "q" item_burn (Some 5) false). reflexivity.
Defined.

End Claims.

(* ===================================================================== *)
(* Further properties of the embedded code                               *)
(* ===================================================================== *)

Module GoFacts.

Lemma wrap64_spec (z : Z) : wrap64 z = z - 2 ^ 64 * ((z + 2 ^ 63) / 2 ^ 64).
Proof. unfold wrap64. rewrite Z.mod_eq by lia. lia. Qed.

Lemma wrap64_add_mul (z q : Z) : wrap64 (z + q * 2 ^ 64) = wrap64 z.
Proof.
  unfold wrap64. replace (z + q * 2 ^ 64 + 2 ^ 63) with (z + 2 ^ 63 + q * 2 ^ 64) by lia.
  rewrite Z.mod_add by lia. reflexivity.
Qed.

Lemma wrap64_add_r (a b : Z) : wrap64 (a + wrap64 b) = wrap64 (a + b).
Proof.
  rewrite (wrap64_spec b).
  replace (a + (b - 2 ^ 64 * ((b + 2 ^ 63) / 2 ^ 64)))
    with (a + b + (- ((b + 2 ^ 63) / 2 ^ 64)) * 2 ^ 64) by lia.
  apply wrap64_add_mul.
Qed.

Lemma wrap64_add_l (a b : Z) : wrap64 (wrap64 a + b) = wrap64 (a + b).
Proof. rewrite Z.add_comm, wrap64_add_r, Z.add_comm. reflexivity. Qed.

Lemma wrap64_mul_l (a b : Z) : wrap64 (wrap64 a * b) = wrap64 (a * b).
Proof.
  rewrite (wrap64_spec a).
  replace ((a - 2 ^ 64 * ((a + 2 ^ 63) / 2 ^ 64)) * b)
    with (a * b + (- ((a + 2 ^ 63) / 2 ^ 64) * b) * 2 ^ 64) by lia.
  apply wrap64_add_mul.
Qed.

Lemma wrap64_small (z : Z) : - 2 ^ 63 <= z <= max_int64 -> wrap64 z = z.
Proof.
  unfold max_int64, wrap64. intros H. rewrite Z.mod_small by lia. lia.
Qed.

(** Strings of ASCII digits. *)
Fixpoint all_digits (s : string) : bool :=
  match s with
  | EmptyString => true
  | String c t => is_digit c && all_digits t
  end.

(** Empty, or starting with a digit. *)
Definition starts_digit_or_end (t : string) : Prop :=
  match t with EmptyString => True | String c _ => is_digit c = true end.

(** Empty, or starting with a byte that is not a digit. *)
Definition starts_non_digit (t : string) : Prop :=
  match t with EmptyString => True | String c _ => is_digit c = false end.

Lemma take_digits_app (ds t : string) :
  all_digits ds = true -> starts_non_digit t ->
  Duration.take_digits (ds ++ t) = (ds, t).
Proof.
  induction ds as [|c ds IH]; intros Hd Ht; simpl.
  - destruct t as [|c t]; simpl in *; [reflexivity|]. rewrite Ht. reflexivity.
  - simpl in Hd. apply andb_prop in Hd as [Hc Hd]. rewrite Hc, IH by assumption.
    reflexivity.
Qed.

Lemma take_digits_all (s ds rest : string) :
  Duration.take_digits s = (ds, rest) -> all_digits ds = true /\ starts_non_digit rest.
Proof.
  revert ds rest. induction s as [|c s IH]; simpl; intros ds rest H.
  - inversion H; subst. split; [reflexivity|exact I].
  - destruct (is_digit c) eqn:Ed.
    + destruct (Duration.take_digits s) as [ds' rest'] eqn:Et. inversion H; subst.
      destruct (IH _ _ eq_refl) as [Hd Hr]. simpl. rewrite Ed, Hd. split; [reflexivity|exact Hr].
    + inversion H; subst. split; [reflexivity|exact Ed].
Qed.

Lemma substring_full (t : string) : substring 0 (String.length t) t = t.
Proof. induction t as [|c t IH]; simpl; [reflexivity|]. rewrite IH. reflexivity. Qed.

Lemma substring_after (u t : string) :
  substring (String.length u) (String.length (u ++ t) - String.length u) (u ++ t) = t.
Proof.
  induction u as [|c u IH]; simpl.
  - rewrite Nat.sub_0_r. apply substring_full.
  - exact IH.
Qed.

Lemma prefix_app (u t : string) : String.prefix u (u ++ t) = true.
Proof.
  induction u as [|c u IH]; simpl; [destruct t; reflexivity|].
  destruct (ascii_dec c c) as [_|n]; [exact IH|contradiction (n eq_refl)].
Qed.

End GoFacts.

Module DurationMore.
Import Duration GoFacts.

(** A duration string written as the groups [<digits><unit>] of
    [parts], pairs (unit, digits) in the order of the string. *)
Definition render_parts (parts : list (string * string)) : string :=
  fold_right (fun '(u, ds) acc => (ds ++ u ++ acc)%string) EmptyString parts.

(** The sum [number * unit] of the groups, without wrap-around. *)
Definition parts_total (parts : list (string * string)) : Z :=
  fold_right (fun '(u, ds) acc => digits_value 0 ds * durations u + acc) 0 parts.

(** No unit is a prefix of a later unit followed by the next group's
    digits or by the end. *)
Fixpoint units_order_ok (us : list string) : Prop :=
  match us with
  | [] => True
  | u :: us' =>
      (forall k t, In k us' -> starts_digit_or_end t -> String.prefix u (k ++ t) = false) /\
      units_order_ok us'
  end.

(** Units that a group's digits cannot confuse: distinct, each starting
    with a non-digit, and ordered as [units_order_ok] says. *)
Definition units_ok (us : list string) : Prop :=
  NoDup us /\ Forall (fun u => exists c z, u = String c z /\ is_digit c = false) us /\
  units_order_ok us.

Definition valid_part (p : string * string) : Prop :=
  p.2 <> EmptyString /\ all_digits p.2 = true.

Lemma render_start (parts : list (string * string)) :
  Forall valid_part parts -> starts_digit_or_end (render_parts parts).
Proof.
  destruct parts as [|[u ds] ps]; intros H; simpl; [exact I|].
  inversion H as [|? ? [Hne Hd] _]; subst. simpl in Hne, Hd.
  destruct ds as [|c ds]; [contradiction|]. simpl in *.
  apply andb_prop in Hd as [Hc _]. exact Hc.
Qed.

Lemma match_group_hit (k ds rest : string) :
  ds <> EmptyString -> all_digits ds = true -> starts_non_digit (k ++ rest) ->
  match_group k (ds ++ k ++ rest) = Some (ds, rest).
Proof.
  intros Hne Hd Hk. unfold match_group.
  rewrite take_digits_app by assumption.
  destruct ds as [|c ds]; [contradiction|]. rewrite prefix_app, substring_after. reflexivity.
Qed.

Lemma match_group_miss (u k ds rest : string) :
  ds <> EmptyString -> all_digits ds = true -> starts_non_digit (k ++ rest) ->
  String.prefix u (k ++ rest) = false ->
  match_group u (ds ++ k ++ rest) = None.
Proof.
  intros Hne Hd Hk Hp. unfold match_group.
  rewrite take_digits_app by assumption.
  destruct ds as [|c ds]; [contradiction|]. rewrite Hp. reflexivity.
Qed.

Lemma match_groups_empty (us : list string) : match_groups us EmptyString = Some [].
Proof. induction us as [|u us IH]; [reflexivity|]. simpl. exact IH. Qed.

Lemma units_ok_tail (u : string) (us : list string) : units_ok (u :: us) -> units_ok us.
Proof.
  intros [Hn [Hf [_ Hp]]]. split; [|split].
  - inversion Hn; assumption.
  - inversion Hf; assumption.
  - exact Hp.
Qed.

Lemma match_groups_render (us : list string) (parts : list (string * string)) :
  units_ok us -> map fst parts `sublist_of` us -> Forall valid_part parts ->
  match_groups us (render_parts parts) = Some parts.
Proof.
  revert parts. induction us as [|u us IH]; intros parts Hu Hs Hv.
  - apply sublist_nil_r in Hs. destruct parts; [reflexivity|discriminate].
  - destruct parts as [|[k ds] ps]; [apply match_groups_empty|].
    pose proof Hu as [Hn [Hf Hp]].
    inversion Hv as [|? ? [Hne Hd] Hv']; subst. simpl in Hne, Hd.
    assert (Hk : forall k', In k' (u :: us) -> starts_non_digit (k' ++ render_parts ps)).
    { intros k' Hk'. apply Forall_forall with (x := k') in Hf; [|apply list_elem_of_In; exact Hk'].
      destruct Hf as [c [z [-> Hc]]]. simpl. exact Hc. }
    simpl render_parts. simpl map in Hs. apply sublist_cons_r in Hs as [Hs|[l [Hl Hs]]].
    + assert (Hin : k ∈ us) by (apply (elem_of_sublist _ _ _ (list_elem_of_here _ _) Hs)).
      apply list_elem_of_In in Hin.
      assert (Hne' : u <> k).
      { intros ->. inversion Hn as [|? ? Hni _]; subst. apply Hni, list_elem_of_In, Hin. }
      cbn [match_groups].
      rewrite (match_group_miss u k ds (render_parts ps)); [|assumption|assumption|
        apply Hk; right; exact Hin|].
      * change (ds ++ k ++ render_parts ps)%string with (render_parts ((k, ds) :: ps)).
        apply IH; [exact (units_ok_tail _ _ Hu)|exact Hs|exact Hv].
      * apply (proj1 Hp); [exact Hin|]. apply render_start, Hv'.
    + inversion Hl; subst. cbn [match_groups].
      rewrite match_group_hit; [|assumption|assumption|].
      * rewrite (IH ps (units_ok_tail _ _ Hu) Hs Hv'). reflexivity.
      * apply Hk. left. reflexivity.
Qed.

Lemma durationsOrder_ok : units_ok durationsOrder.
Proof.
  split; [|split].
  - apply (bool_decide_unpack _). vm_compute. exact I.
  - repeat constructor; eexists _, _; (split; [reflexivity|reflexivity]).
  - simpl. repeat split; intros k t Hk Ht; repeat (destruct Hk as [<-|Hk]); try contradiction;
      destruct t as [|c t]; simpl in Ht; simpl; try reflexivity;
      destruct c as [[] [] [] [] [] [] [] []]; try discriminate Ht; reflexivity.
Qed.

Lemma sum_parts_total (x : Z) (parts : list (string * string)) :
  Forall (fun p => digits_value 0 p.2 <= max_int64) parts ->
  sum_parts (wrap64 x) parts = inl (wrap64 (x + parts_total parts)).
Proof.
  revert x. induction parts as [|[u ds] ps IH]; intros x H; simpl.
  - rewrite Z.add_0_r. reflexivity.
  - inversion H as [|? ? Hv Hps]; subst. simpl in Hv.
    unfold atoi_digits. apply Z.leb_le in Hv. rewrite Hv.
    rewrite wrap64_add_r, wrap64_add_l, IH by exact Hps.
    f_equal. f_equal. lia.
Qed.

Lemma pretty_loop_small (us : list (Z * string)) (d : Z) (b : string) :
  Forall (fun p => d < p.1) us -> pretty_loop us d b = b.
Proof.
  induction us as [|[v n] us IH]; intros H; simpl; [reflexivity|].
  inversion H as [|? ? Hv Hus]; subst. simpl in Hv.
  replace (v >? d) with true by (symmetry; apply Z.gtb_lt; exact Hv).
  apply IH, Hus.
Qed.

(** [ParseDuration] on the groups [<digits><unit>] with units taken in
    the order y, mo, w, d, h, m, s, each at most once, every number a
    non-empty run of decimal digits of value at most [max_int64]: it
    returns the sum of number times unit, wrapped to [int64]. *)
Theorem ParseDuration_render (parts : list (string * string)) :
  map fst parts `sublist_of` durationsOrder ->
  Forall (fun p => p.2 <> EmptyString /\ all_digits p.2 = true /\
                   digits_value 0 p.2 <= max_int64) parts ->
  parts <> [] ->
  ParseDuration (render_parts parts) = inl (wrap64 (parts_total parts)).
Proof.
  intros Hs Hv Hne.
  assert (Hvp : Forall valid_part parts).
  { eapply Forall_impl; [exact Hv|]. intros p [H1 [H2 _]]. split; assumption. }
  assert (Hr : match_groups durationsOrder (render_parts parts) = Some parts)
    by (apply match_groups_render; [apply durationsOrder_ok|exact Hs|exact Hvp]).
  unfold ParseDuration.
  destruct (render_parts parts) as [|c t] eqn:E.
  - destruct parts as [|[u ds] ps]; [contradiction|].
    inversion Hvp as [|? ? [Hd _] _]; subst. simpl in E, Hd.
    destruct ds; [contradiction|discriminate].
  - rewrite Hr. change 0 with (wrap64 0).
    rewrite sum_parts_total; [reflexivity|].
    eapply Forall_impl; [exact Hv|]. intros p [_ [_ H]]. exact H.
Qed.

Lemma ParseDuration_render_witness :
  ParseDuration (render_parts [("d", "1"); ("m", "5")]%string) =
    inl (wrap64 (parts_total [("d", "1"); ("m", "5")]%string)).
Proof.
  apply ParseDuration_render.
  - cbn. repeat constructor.
  - repeat constructor; try discriminate; apply Z.leb_le; vm_compute; reflexivity.
  - discriminate.
Defined.

(** [PrettyDuration] prints nothing for every duration below one second,
    zero and negative durations included. *)
Theorem PrettyDuration_below_second (d : Z) :
  d < time_second -> PrettyDuration d = EmptyString.
Proof.
  intros H. unfold PrettyDuration. rewrite pretty_loop_small; [reflexivity|].
  unfold pretty_units, durationsOrder, durationPretty. simpl.
  unfold time_second, time_minute, time_hour, timeDay, timeWeek, timeMonth, timeYear in *.
  repeat (apply List.Forall_cons; [cbv [timeYear timeMonth timeWeek timeDay time_hour time_minute time_second fst] in *; lia|]). apply List.Forall_nil.
Qed.

Lemma PrettyDuration_below_second_witness :
  0 < time_second /\ PrettyDuration 0 = EmptyString.
Proof.
  split; [apply Z.ltb_lt; vm_compute; reflexivity|].
  apply PrettyDuration_below_second. apply Z.ltb_lt; vm_compute; reflexivity.
Defined.

End DurationMore.

Module BytesizeMore.
Import Duration Bytesize GoFacts.

(** The units [bytePattern] accepts, with the number of [*= 1024] steps
    the loop over [bytePrefixes] takes for each. *)
Definition byte_units : list (string * nat) :=
  [("B", 0); ("KB", 1); ("KiB", 1); ("MB", 2); ("MiB", 2); ("GB", 3); ("GiB", 3);
   ("TB", 4); ("TiB", 4); ("PB", 5); ("PiB", 5)]%string%nat.

Lemma is_prefix_letter_spec (p : ascii) :
  is_prefix_letter p = true -> In p ["K"; "M"; "G"; "T"; "P"]%char.
Proof.
  unfold is_prefix_letter. rewrite existsb_exists. intros [x [Hx E]].
  apply Ascii.eqb_eq in E. subst x. exact Hx.
Qed.

Lemma unit_match_units (u : string) : unit_match u = true -> exists k, In (u, k) byte_units.
Proof.
  destruct u as [|c [|c2 [|c3 [|c4 u]]]]; simpl; intros H; try discriminate.
  - apply Ascii.eqb_eq in H. subst c. exists 0%nat. left. reflexivity.
  - apply andb_prop in H as [Hp Hb]. apply Ascii.eqb_eq in Hb. subst c2.
    apply is_prefix_letter_spec in Hp.
    repeat (destruct Hp as [<-|Hp]); try contradiction;
      eexists; simpl; eauto 12.
  - apply andb_prop in H as [H Hb]. apply andb_prop in H as [Hp Hi].
    apply Ascii.eqb_eq in Hb, Hi. subst c2 c3.
    apply is_prefix_letter_spec in Hp.
    repeat (destruct Hp as [<-|Hp]); try contradiction;
      eexists; simpl; eauto 12.
Qed.

Lemma units_shape (u : string) (k : nat) :
  In (u, k) byte_units ->
  unit_match u = true /\ starts_non_digit u /\ substring 0 1 u <> EmptyString.
Proof.
  simpl. intros H.
  repeat (destruct H as [H|H]; [inversion H; subst; split; [reflexivity|split; [reflexivity|discriminate]]|]).
  contradiction.
Qed.

Lemma scale_loop_hit (pref unit : string) (ps : list string) (size : Z) :
  String.eqb pref unit = true -> scale_loop (pref :: ps) unit size = size.
Proof. intros H. simpl. rewrite H. reflexivity. Qed.

Lemma scale_loop_skip (pref unit : string) (ps : list string) (size : Z) :
  String.eqb pref unit = false ->
  scale_loop (pref :: ps) unit size = scale_loop ps unit (wrap64 (size * 1024)).
Proof. intros H. simpl. rewrite H. reflexivity. Qed.

Lemma scale_loop_units (u : string) (k : nat) (v : Z) :
  In (u, k) byte_units -> - 2 ^ 63 <= v <= max_int64 ->
  scale_loop bytePrefixes (substring 0 1 u) v = wrap64 (v * 1024 ^ Z.of_nat k).
Proof.
  intros H Hv. unfold bytePrefixes. simpl in H.
  repeat (destruct H as [H|H];
    [inversion H; subst; cbn [substring];
     repeat (rewrite scale_loop_skip by reflexivity);
     rewrite scale_loop_hit by reflexivity;
     repeat (rewrite wrap64_mul_l || rewrite <- Z.mul_assoc);
     first [ rewrite Z.mul_1_r; symmetry; apply wrap64_small, Hv
           | f_equal; rewrite <- ?Z.mul_assoc; reflexivity ] |]).
  contradiction.
Qed.

Lemma digits_value_nonneg (s : string) (acc : Z) :
  all_digits s = true -> 0 <= acc -> 0 <= digits_value acc s.
Proof.
  revert acc. induction s as [|c s IH]; intros acc Hs Ha; simpl in *; [exact Ha|].
  apply andb_prop in Hs as [Hc Hs]. apply IH; [exact Hs|].
  unfold is_digit in Hc. apply andb_prop in Hc as [Hc _]. apply Z.leb_le in Hc.
  unfold digit_value. lia.
Qed.

(** [ParseBytesize] on a non-empty run of decimal digits followed by one
    of the units B, KB, KiB, ..., PB, PiB: a number above [max_int64]
    is the range error of [strconv.Atoi], zero is the "not all values
    were found" error, and any other number [v] gives [v * 1024^k],
    wrapped to [int64], where [k] is the position of the unit's first
    letter in [bytePrefixes]; "KB" and "KiB" give the same result. *)
Theorem ParseBytesize_units (ds u : string) (k : nat) :
  all_digits ds = true -> ds <> EmptyString -> In (u, k) byte_units ->
  ParseBytesize (ds ++ u) =
    match atoi_digits ds with
    | AtoiRange => inr BErrRange
    | AtoiOk v => if v =? 0 then inr BErrMissing else inl (wrap64 (v * 1024 ^ Z.of_nat k))
    end.
Proof.
  intros Hd Hne Hu. destruct (units_shape u k Hu) as [Hm [Hs Hsub]].
  unfold ParseBytesize. rewrite take_digits_app by assumption.
  replace (String.eqb ds "") with false
    by (symmetry; apply String.eqb_neq; exact Hne).
  rewrite Hm. cbn [negb andb].
  unfold atoi_digits. destruct (digits_value 0 ds <=? max_int64) eqn:Hr; [|reflexivity].
  apply Z.leb_le in Hr.
  replace (String.eqb (substring 0 1 u) "") with false
    by (symmetry; apply String.eqb_neq; exact Hsub).
  rewrite orb_false_r. destruct (digits_value 0 ds =? 0); [reflexivity|].
  rewrite scale_loop_units with (k := k); [reflexivity|exact Hu|].
  pose proof (digits_value_nonneg ds 0 Hd ltac:(lia)). split; lia.
Qed.

Lemma ParseBytesize_units_witness :
  ParseBytesize ("23" ++ "MiB") = inl (wrap64 (23 * 1024 ^ 2)).
Proof.
  rewrite (ParseBytesize_units "23" "MiB" 2); [reflexivity|reflexivity|discriminate|].
  simpl. tauto.
Defined.

(** [ParseBytesize] fails with [ErrNoMatch] exactly on the inputs that are
    not a non-empty run of decimal digits followed by one of the units
    B, KB, KiB, ..., PB, PiB: no sign, no space, no lower-case prefix. *)
Theorem ParseBytesize_nomatch (s : string) :
  ParseBytesize s = inr BErrNoMatch <->
  ~ (exists ds u k, s = (ds ++ u)%string /\ all_digits ds = true /\
                    ds <> EmptyString /\ In (u, k) byte_units).
Proof.
  split.
  - intros H [ds [u [k [-> [Hd [Hne Hu]]]]]].
    rewrite ParseBytesize_units with (k := k) in H by assumption.
    destruct (atoi_digits ds); [destruct (v =? 0)|]; discriminate.
  - intros Hn. unfold ParseBytesize.
    destruct (take_digits s) as [ds rest] eqn:Et.
    destruct (DurationFacts.take_digits_spec _ _ _ Et) as [Es _].
    destruct (take_digits_all _ _ _ Et) as [Hd _].
    destruct (negb (String.eqb ds "") && unit_match rest) eqn:Em; [|reflexivity].
    exfalso. apply andb_prop in Em as [Hne Hm].
    destruct (unit_match_units rest Hm) as [k Hk].
    apply Hn. exists ds, rest, k. repeat split; try assumption.
    intros E. subst ds. discriminate Hne.
Qed.

End BytesizeMore.

Module StoreMore.
Import ItemModel StoreModel StoreFacts.

(** [i.ID = id] on the copy of the Item that [Put] inserts. *)
Definition with_id (i : Item) (id : string) : Item :=
  {| ID := id; DeletionKey := DeletionKey i; BurnAfterReading := BurnAfterReading i;
     Filename := Filename i; ContentType := ContentType i; Created := Created i;
     Expires := Expires i; Owner := Owner i |}.

(** Every index entry is stored under its own [ID]. *)
Definition key_id_inv (st : StoreState) : Prop :=
  map_Forall (fun k i => ID i = k) (index st).

(** The pointwise effect of deleting the entries of the ids [ids]. *)
Definition without {A} (ids : list string) (m : gmap string A) (k : string) : option A :=
  if decide (k ∈ ids) then None else m !! k.

Lemma Put_ok_trace st gen io i body id tr :
  Put st gen io i body = (inl id, tr) ->
  createID gen (kv_get st) = inl id /\
  tr = [EffInsert id (with_id i id); EffCreate id; EffWrite id body; EffCloseBody; EffCloseFile].
Proof.
  unfold Put. destruct (createID gen (kv_get st)) as [id0|e]; [|discriminate].
  destruct (io_insert_ok io), (io_create_ok io), (io_copy_fails_after io),
    (io_close_body_ok io), (io_close_file_ok io); simpl; intros H; try discriminate;
    inversion H; subst; split; reflexivity.
Qed.

Lemma createID_fresh st gen id :
  createID gen (kv_get st) = inl id -> index st !! id = None.
Proof.
  intros H. destruct (createID_loop_ok _ _ _ _ _ H) as [k [_ [_ [Hn _]]]].
  unfold kv_get in Hn. destruct (index st !! id); [discriminate|reflexivity].
Qed.

Lemma Put_crash_index st gen io i body (k : nat) :
  index (crash_state st (snd (Put st gen io i body)) k) = index st \/
  exists id, index (crash_state st (snd (Put st gen io i body)) k) =
             <[id := with_id i id]> (index st).
Proof.
  unfold crash_state, Put.
  destruct (createID gen (kv_get st)) as [id|e]; [|left; simpl; rewrite firstn_nil; reflexivity].
  destruct (io_insert_ok io), (io_create_ok io), (io_copy_fails_after io),
    (io_close_body_ok io), (io_close_file_ok io);
    destruct k as [|[|[|[|[|k]]]]]; cbn [snd negb app firstn]; rewrite ?firstn_nil; simpl;
    first [left; reflexivity | right; exists id; reflexivity].
Qed.

Lemma delete_each_ok (st : StoreState) (items : list Item) :
  NoDup (ID <$> items) ->
  Forall (fun i => is_Some (index st !! ID i) /\ is_Some (blobs st !! ID i)) items ->
  snd (delete_each st items) = inl tt /\
  forall k, index (fst (delete_each st items)) !! k = without (ID <$> items) (index st) k /\
            blobs (fst (delete_each st items)) !! k = without (ID <$> items) (blobs st) k.
Proof.
  unfold without. revert st. induction items as [|i is IH]; intros st Hn Hf.
  - split; [reflexivity|]. intros k. simpl. split; reflexivity.
  - inversion Hf as [|? ? [[x Hx] [y Hy]] Hfs]; subst.
    rewrite fmap_cons, NoDup_cons in Hn. destruct Hn as [Hni Hn]. rewrite fmap_cons.
    cbn [delete_each]. unfold Delete. rewrite Hx. cbn [index blobs]. rewrite Hy. cbn.
    destruct (IH (mkStoreState (delete (ID i) (index st)) (delete (ID i) (blobs st))) Hn)
      as [Hr Hk].
    { apply Forall_forall. intros j Hj.
      assert (Hne : ID j <> ID i).
      { intros E. apply Hni. rewrite <- E. apply list_elem_of_fmap_2, Hj. }
      rewrite Forall_forall in Hfs. destruct (Hfs j Hj) as [H1 H2].
      cbn [index blobs]. rewrite !lookup_delete_ne by congruence. split; assumption. }
    split; [exact Hr|]. intros k. destruct (Hk k) as [Hk1 Hk2]. rewrite Hk1, Hk2.
    cbn [index blobs].
    destruct (decide (k = ID i)) as [->|Hne].
    + destruct (decide (ID i ∈ ID <$> is)); [contradiction|].
      destruct (decide (ID i ∈ ID i :: (ID <$> is))) as [_|Hn0];
        [|exfalso; apply Hn0, list_elem_of_here].
      rewrite !lookup_delete_eq. split; reflexivity.
    + rewrite !lookup_delete_ne by congruence.
      destruct (decide (k ∈ ID <$> is)) as [Hin|Hnin];
        destruct (decide (k ∈ ID i :: (ID <$> is))) as [Hin'|Hnin']; try (split; reflexivity).
      * exfalso. apply Hnin'. apply list_elem_of_further. exact Hin.
      * apply elem_of_cons in Hin' as [E|Hin']; contradiction.
Qed.

Lemma Delete_index (st : StoreState) (id : string) :
  index (fst (Delete st id)) = index st \/ index (fst (Delete st id)) = delete id (index st).
Proof.
  unfold Delete. destruct (index st !! id); [|left; reflexivity].
  destruct (blobs st !! id); right; reflexivity.
Qed.

Lemma key_id_delete (st : StoreState) (id : string) :
  key_id_inv st -> key_id_inv (fst (Delete st id)).
Proof.
  unfold key_id_inv. intros H.
  destruct (Delete_index st id) as [-> | ->]; [exact H|]. apply map_Forall_delete, H.
Qed.

Lemma key_id_delete_each (st : StoreState) (items : list Item) :
  key_id_inv st -> key_id_inv (fst (delete_each st items)).
Proof.
  revert st. induction items as [|i is IH]; intros st H; simpl; [exact H|].
  pose proof (key_id_delete st (ID i) H) as Hd.
  destruct (Delete st (ID i)) as [st' r]. destruct r; simpl in *; [apply IH|]; exact Hd.
Qed.

Lemma run_put_success st gen io i body st' id :
  run_put st gen io i body = (st', inl id) ->
  index st !! id = None /\ index st' = <[id := with_id i id]> (index st) /\
  blobs st' = <[id := body]> (blobs st).
Proof.
  unfold run_put. destruct (Put st gen io i body) as [r tr] eqn:E. intros H.
  inversion H; subst.
  destruct (Put_ok_trace _ _ _ _ _ _ _ E) as [Hc ->].
  split; [exact (createID_fresh _ _ _ Hc)|]. simpl. split; [reflexivity|].
  rewrite insert_insert_eq. reflexivity.
Qed.

(** A successful [Put] took an id that had no index entry, inserted the
    Item under it with its [ID] field set to that id, and stored the
    whole body as the id's file; nothing else changed. *)
Theorem Put_success st gen io i body st' id :
  run_put st gen io i body = (st', inl id) ->
  index st !! id = None /\ index st' = <[id := with_id i id]> (index st) /\
  blobs st' = <[id := body]> (blobs st).
Proof.
  unfold run_put. destruct (Put st gen io i body) as [r tr] eqn:E. intros H.
  inversion H; subst.
  destruct (Put_ok_trace _ _ _ _ _ _ _ E) as [Hc ->].
  split; [exact (createID_fresh _ _ _ Hc)|]. cbn [crash_state length firstn fold_left apply_effect index blobs].
  split; [reflexivity|]. rewrite insert_insert_eq. reflexivity.
Qed.

Definition ex_item : Item := mkItem "" "k" false "a.txt" "text/plain" 10 20 [].

Definition ex_st : StoreState :=
  mkStoreState (<["old" := with_id ex_item "old"]> ∅) (<["old" := "x"]> ∅).

(** An id generator whose first candidate, "new", is free in [ex_st]. *)
Definition ex_gen : nat -> gen_result := fun _ => GenOk "new".

Definition ex_io : PutIO := mkPutIO true true None true true.

Lemma Put_success_witness :
  index ex_st !! "new" = None /\
  index (fst (run_put ex_st ex_gen ex_io ex_item "hello")) =
    <["new" := with_id ex_item "new"]> (index ex_st) /\
  blobs (fst (run_put ex_st ex_gen ex_io ex_item "hello")) = <["new" := "hello"]> (blobs ex_st).
Proof. apply (Put_success ex_st ex_gen ex_io ex_item "hello"). vm_compute. reflexivity. Defined.

(** [Get] right after a successful [Put] returns the stored Item (with
    its new [ID]) and changes nothing, unless cleanup is on and the Item
    has already expired. *)
Theorem Put_then_Get st gen io i body st' id (cleanup : bool) (now : Z) :
  run_put st gen io i body = (st', inl id) ->
  cleanup = false \/ now <= Expires i ->
  Get st' cleanup now id = (st', inl (with_id i id)).
Proof.
  intros H Hc. destruct (run_put_success _ _ _ _ _ _ _ H) as [_ [Hi _]].
  unfold Get. rewrite Hi, lookup_insert_eq. cbn [Expires with_id].
  destruct Hc as [-> | Hle]; [reflexivity|].
  replace (Expires i <? now) with false by (symmetry; apply Z.ltb_ge; exact Hle).
  rewrite andb_false_r. reflexivity.
Qed.

Lemma Put_then_Get_witness :
  Get (fst (run_put ex_st ex_gen ex_io ex_item "hello")) true 15 "new" =
    (fst (run_put ex_st ex_gen ex_io ex_item "hello"), inl (with_id ex_item "new")).
Proof.
  apply (Put_then_Get ex_st ex_gen ex_io ex_item "hello"); [vm_compute; reflexivity|].
  right. apply Z.leb_le. reflexivity.
Defined.

(** [Delete] right after a successful [Put] of the same id succeeds and
    restores the index as it was before the [Put]; the id's file is gone. *)
Theorem Put_then_Delete st gen io i body st' id :
  run_put st gen io i body = (st', inl id) ->
  Delete st' id = (mkStoreState (index st) (delete id (blobs st)), inl tt).
Proof.
  intros H. destruct (run_put_success _ _ _ _ _ _ _ H) as [Hf [Hi Hb]].
  unfold Delete. rewrite Hi, lookup_insert_eq. cbn [index blobs]. rewrite Hb, lookup_insert_eq.
  cbn [index blobs]. rewrite delete_insert_eq, delete_insert_eq, (delete_id (index st)) by exact Hf.
  reflexivity.
Qed.

Lemma Put_then_Delete_witness :
  Delete (fst (run_put ex_st ex_gen ex_io ex_item "hello")) "new" =
    (mkStoreState (index ex_st) (delete "new" (blobs ex_st)), inl tt).
Proof. apply (Put_then_Delete ex_st ex_gen ex_io ex_item "hello"). vm_compute. reflexivity. Defined.

(** Every index entry is stored under its own [ID]; [Put] (also when it
    stops at an error or a crash cuts it short), [Delete], [Get] and
    [deleteExpired] keep this so. *)
Theorem store_keeps_key_id (st : StoreState) :
  key_id_inv st ->
  (forall gen io i body (k : nat), key_id_inv (crash_state st (snd (Put st gen io i body)) k)) /\
  (forall id, key_id_inv (fst (Delete st id))) /\
  (forall cleanup now id, key_id_inv (fst (Get st cleanup now id))) /\
  (forall found, key_id_inv (fst (deleteExpired st found))).
Proof.
  intros H. split; [|split; [|split]].
  - intros gen io i body k. unfold key_id_inv.
    destruct (Put_crash_index st gen io i body k) as [-> | [id ->]]; [exact H|].
    apply map_Forall_insert_2; [reflexivity|exact H].
  - intros id. apply key_id_delete, H.
  - intros cleanup now id. unfold Get. destruct (index st !! id) as [i|]; [|exact H].
    destruct (cleanup && (Expires i <? now)); [|exact H].
    pose proof (key_id_delete st (ID i) H) as Hd.
    destruct (Delete st (ID i)) as [st' r]. destruct r; exact Hd.
  - intros found. apply key_id_delete_each, H.
Qed.

Lemma store_keeps_key_id_witness :
  key_id_inv ex_st /\
  key_id_inv (fst (deleteExpired ex_st [with_id ex_item "old"])).
Proof.
  assert (H : key_id_inv ex_st).
  { unfold key_id_inv, ex_st. apply map_Forall_insert_2; [reflexivity|apply map_Forall_empty]. }
  split; [exact H|]. apply (store_keeps_key_id ex_st H).
Defined.

(** [Get] with cleanup on an expired Item deletes it and reports it as
    not found: both its index entry and its file are removed, or, when
    the file is already missing, the index entry is removed and the
    error of [os.Remove] is returned. *)
Theorem Get_expired (st : StoreState) (now : Z) (id : string) (i : Item) :
  key_id_inv st -> index st !! id = Some i -> Expires i < now ->
  Get st true now id =
    (mkStoreState (delete id (index st)) (delete id (blobs st)),
     match blobs st !! id with
     | Some _ => inr ErrNotFound
     | None => inr (ErrGetDelete ErrRemove)
     end).
Proof.
  intros Hk Hi He. pose proof (map_Forall_lookup_1 _ _ _ _ Hk Hi) as Hid. simpl in Hid.
  unfold Get. rewrite Hi.
  replace (Expires i <? now) with true by (symmetry; apply Z.ltb_lt; exact He).
  cbn [andb]. rewrite Hid. unfold Delete. rewrite Hi.
  cbn [index blobs]. destruct (blobs st !! id) eqn:Eb; [reflexivity|].
  rewrite (delete_id (blobs st)) by exact Eb. reflexivity.
Qed.

Lemma Get_expired_witness :
  Get ex_st true 30 "old" =
    (mkStoreState (delete "old" (index ex_st)) (delete "old" (blobs ex_st)), inr ErrNotFound).
Proof.
  apply (Get_expired ex_st 30 "old" (with_id ex_item "old")).
  - unfold key_id_inv, ex_st. apply map_Forall_insert_2; [reflexivity|apply map_Forall_empty].
  - reflexivity.
  - apply Z.ltb_lt. reflexivity.
Defined.

(** The items [s.bh.Find] returns for [Where("Expires").Lt(now)]: the
    index entries whose expiry lies before [now]. *)
Definition expired_entries (st : StoreState) (now : Z) : list (string * Item) :=
  filter (fun kv => Expires kv.2 < now) (map_to_list (index st)).

Lemma fst_filter_NoDup (P : string * Item -> Prop) `{forall x, Decision (P x)}
    (l : list (string * Item)) :
  NoDup (fst <$> l) -> NoDup (fst <$> filter P l).
Proof.
  induction l as [|x l IH]; intros Hn; [constructor|].
  rewrite fmap_cons, NoDup_cons in Hn. destruct Hn as [Hx Hn].
  rewrite filter_cons. destruct (decide (P x)); [|apply IH, Hn].
  rewrite fmap_cons, NoDup_cons. split; [|apply IH, Hn].
  intros Hin. apply Hx. apply list_elem_of_fmap in Hin as [y [E Hy]].
  apply list_elem_of_filter in Hy as [_ Hy]. rewrite E. apply list_elem_of_fmap_2, Hy.
Qed.

Lemma ids_of_pairs (l : list (string * Item)) :
  Forall (fun kv => ID kv.2 = kv.1) l -> ID <$> (snd <$> l) = fst <$> l.
Proof.
  induction l as [|[k v] l IH]; intros H; [reflexivity|].
  inversion H as [|? ? Hkv Hl]; subst. simpl in Hkv. rewrite !fmap_cons, IH by exact Hl.
  simpl. rewrite Hkv. reflexivity.
Qed.

Lemma expired_entries_spec (st : StoreState) (now : Z) (k : string) (i : Item) :
  (k, i) ∈ expired_entries st now <-> index st !! k = Some i /\ Expires i < now.
Proof.
  unfold expired_entries. rewrite list_elem_of_filter, elem_of_map_to_list. simpl. tauto.
Qed.

(** [deleteExpired] on a store whose entries are stored under their
    [ID]s, given what [Find] returns for the expired entries (each one
    once, in any order) and given that each of them has its file: it
    succeeds, and afterwards the index and the files hold exactly the
    entries that had not expired, unchanged. *)
Theorem deleteExpired_sweep (st : StoreState) (now : Z) (found : list Item) :
  key_id_inv st ->
  found ≡ₚ snd <$> expired_entries st now ->
  Forall (fun i => is_Some (blobs st !! ID i)) found ->
  snd (deleteExpired st found) = inl tt /\
  forall k,
    index (fst (deleteExpired st found)) !! k =
      match index st !! k with
      | Some i => if Expires i <? now then None else Some i
      | None => None
      end /\
    blobs (fst (deleteExpired st found)) !! k =
      match index st !! k with
      | Some i => if Expires i <? now then None else blobs st !! k
      | None => blobs st !! k
      end.
Proof.
  intros Hk Hp Hb.
  assert (HF : Forall (fun kv => ID kv.2 = kv.1) (expired_entries st now)).
  { apply Forall_forall. intros [k v] Hin. apply expired_entries_spec in Hin as [Hin _].
    exact (map_Forall_lookup_1 _ _ _ _ Hk Hin). }
  assert (Hids : ID <$> found ≡ₚ fst <$> expired_entries st now).
  { rewrite Hp. rewrite ids_of_pairs by exact HF. reflexivity. }
  assert (Hmem : forall k, k ∈ ID <$> found <-> exists i, index st !! k = Some i /\ Expires i < now).
  { intros k. rewrite Hids, list_elem_of_fmap. split.
    - intros [[k' v] [-> Hin]]. apply expired_entries_spec in Hin. exists v. exact Hin.
    - intros [v Hv]. exists (k, v). split; [reflexivity|]. apply expired_entries_spec, Hv. }
  assert (Hn : NoDup (ID <$> found)).
  { rewrite Hids. apply fst_filter_NoDup, NoDup_fst_map_to_list. }
  assert (Hf : Forall (fun i => is_Some (index st !! ID i) /\ is_Some (blobs st !! ID i)) found).
  { apply Forall_and. split; [|exact Hb].
    apply Forall_forall. intros i Hi.
    destruct (proj1 (Hmem (ID i)) (list_elem_of_fmap_2 _ _ _ Hi)) as [v [Hv _]].
    rewrite Hv. eexists. reflexivity. }
  destruct (delete_each_ok st found Hn Hf) as [Hr Hl].
  unfold deleteExpired. split; [exact Hr|]. intros k. destruct (Hl k) as [H1 H2].
  rewrite H1, H2. unfold without.
  destruct (decide (k ∈ ID <$> found)) as [Hin|Hnin].
  - destruct (proj1 (Hmem k) Hin) as [v [Hv He]]. rewrite Hv.
    replace (Expires v <? now) with true by (symmetry; apply Z.ltb_lt; exact He).
    split; reflexivity.
  - destruct (index st !! k) as [v|] eqn:Hv; [|split; reflexivity].
    destruct (Expires v <? now) eqn:He; [|split; reflexivity].
    exfalso. apply Hnin, Hmem. exists v. split; [exact Hv|]. apply Z.ltb_lt, He.
Qed.

Definition ex_st2 : StoreState :=
  mkStoreState (<["new" := with_id ex_item "new"]> (index ex_st))
               (<["new" := "y"]> (blobs ex_st)).

Lemma deleteExpired_sweep_witness :
  snd (deleteExpired ex_st2 (snd <$> expired_entries ex_st2 30)) = inl tt /\
  forall k,
    index (fst (deleteExpired ex_st2 (snd <$> expired_entries ex_st2 30))) !! k =
      match index ex_st2 !! k with
      | Some i => if Expires i <? 30 then None else Some i
      | None => None
      end /\
    blobs (fst (deleteExpired ex_st2 (snd <$> expired_entries ex_st2 30))) !! k =
      match index ex_st2 !! k with
      | Some i => if Expires i <? 30 then None else blobs ex_st2 !! k
      | None => blobs ex_st2 !! k
      end.
Proof.
  apply deleteExpired_sweep.
  - unfold key_id_inv, ex_st2, ex_st. cbn [index].
    apply map_Forall_insert_2; [reflexivity|].
    apply map_Forall_insert_2; [reflexivity|apply map_Forall_empty].
  - reflexivity.
  - vm_compute. repeat constructor; eexists; reflexivity.
Defined.

Lemma found_facts (st : StoreState) (now : Z) (found : list Item) :
  key_id_inv st ->
  found ≡ₚ snd <$> expired_entries st now ->
  NoDup (ID <$> found) /\ Forall (fun i => index st !! ID i = Some i /\ Expires i < now) found.
Proof.
  intros Hk Hp.
  assert (HF : Forall (fun kv => ID kv.2 = kv.1) (expired_entries st now)).
  { apply Forall_forall. intros [k v] Hin. apply expired_entries_spec in Hin as [Hin _].
    exact (map_Forall_lookup_1 _ _ _ _ Hk Hin). }
  split.
  - rewrite Hp, ids_of_pairs by exact HF. apply fst_filter_NoDup, NoDup_fst_map_to_list.
  - rewrite Hp. apply Forall_fmap, Forall_forall. intros [k v] Hin. simpl.
    pose proof (proj1 (expired_entries_spec st now k v) Hin) as [Hv He].
    rewrite (map_Forall_lookup_1 _ _ _ _ Hk Hv). split; assumption.
Qed.

Lemma delete_each_indexed (st : StoreState) (items : list Item) :
  NoDup (ID <$> items) ->
  Forall (fun i => is_Some (index st !! ID i)) items ->
  (snd (delete_each st items) = inl tt <-> Forall (fun i => is_Some (blobs st !! ID i)) items) /\
  (snd (delete_each st items) = inl tt \/ snd (delete_each st items) = inr ErrRemove).
Proof.
  revert st. induction items as [|i is IH]; intros st Hn Hf.
  - split; [split; intros _; [constructor|reflexivity]|left; reflexivity].
  - rewrite fmap_cons, NoDup_cons in Hn. destruct Hn as [Hni Hn].
    inversion Hf as [|? ? [x Hx] Hfs]; subst.
    cbn [delete_each]. unfold Delete. rewrite Hx. cbn [index blobs].
    destruct (blobs st !! ID i) as [y|] eqn:Hy.
    + cbn.
      assert (Hne : forall j, j ∈ is -> ID j <> ID i).
      { intros j Hj E. apply Hni. rewrite <- E. apply list_elem_of_fmap_2, Hj. }
      destruct (IH (mkStoreState (delete (ID i) (index st)) (delete (ID i) (blobs st))) Hn)
        as [Hiff Hor].
      { apply Forall_forall. intros j Hj. rewrite Forall_forall in Hfs.
        cbn [index]. rewrite lookup_delete_ne by (apply not_eq_sym, Hne, Hj). apply Hfs, Hj. }
      split; [|exact Hor]. rewrite Hiff. cbn [blobs]. split.
      * intros H. constructor; [rewrite Hy; eexists; reflexivity|].
        apply Forall_forall. intros j Hj. rewrite Forall_forall in H.
        specialize (H j Hj). rewrite lookup_delete_ne in H by (apply not_eq_sym, Hne, Hj).
        exact H.
      * intros H. inversion H as [|? ? _ Hs]; subst.
        apply Forall_forall. intros j Hj. rewrite Forall_forall in Hs.
        rewrite lookup_delete_ne by (apply not_eq_sym, Hne, Hj). apply Hs, Hj.
    + cbn. split; [|right; reflexivity]. split; [discriminate|].
      intros H. inversion H as [|? ? Hb _]; subst. rewrite Hy in Hb. inversion Hb. discriminate.
Qed.

(** [deleteExpired] on a store whose entries are stored under their
    [ID]s, given what [Find] returns for the expired entries: it fails
    exactly when the file of one of them is missing, and then always with
    the error of [os.Remove]. *)
Theorem deleteExpired_missing_file (st : StoreState) (now : Z) (found : list Item) :
  key_id_inv st ->
  found ≡ₚ snd <$> expired_entries st now ->
  (snd (deleteExpired st found) = inl tt <-> Forall (fun i => is_Some (blobs st !! ID i)) found) /\
  (snd (deleteExpired st found) = inl tt \/ snd (deleteExpired st found) = inr ErrRemove).
Proof.
  intros Hk Hp. destruct (found_facts st now found Hk Hp) as [Hn Hf].
  apply delete_each_indexed; [exact Hn|].
  eapply Forall_impl; [exact Hf|]. intros i [Hi _]. rewrite Hi. eexists. reflexivity.
Qed.

Definition ex_st3 : StoreState :=
  mkStoreState (<["new" := with_id ex_item "new"]> (index ex_st)) (blobs ex_st).

Lemma deleteExpired_missing_file_witness :
  (snd (deleteExpired ex_st3 (snd <$> expired_entries ex_st3 30)) = inl tt <->
     Forall (fun i => is_Some (blobs ex_st3 !! ID i)) (snd <$> expired_entries ex_st3 30)) /\
  (snd (deleteExpired ex_st3 (snd <$> expired_entries ex_st3 30)) = inl tt \/
   snd (deleteExpired ex_st3 (snd <$> expired_entries ex_st3 30)) = inr ErrRemove).
Proof.
  apply (deleteExpired_missing_file ex_st3 30); [|reflexivity].
  unfold key_id_inv, ex_st3, ex_st. cbn [index].
  apply map_Forall_insert_2; [reflexivity|].
  apply map_Forall_insert_2; [reflexivity|apply map_Forall_empty].
Defined.

End StoreMore.

Module WebMore.
Import Duration ItemModel WebModel WebFacts GoFacts ItemFacts.

Lemma strings_index_unfold (sep s : string) :
  strings_index sep s =
    if String.prefix sep s then Some 0%nat else
    match s with
    | EmptyString => None
    | String _ t => option_map S (strings_index sep t)
    end.
Proof. destruct s; reflexivity. Qed.

Lemma strings_cut_app (p rest : string) :
  strings_cut (p ++ rest) p = (EmptyString, rest, true).
Proof.
  unfold strings_cut. rewrite strings_index_unfold, prefix_app. cbn [Nat.add].
  rewrite substring_after.
  replace (substring 0 0 (p ++ rest)) with EmptyString by (destruct (p ++ rest)%string; reflexivity).
  reflexivity.
Qed.

Lemma ServeHTTP_app (p : string) (sf : gset string) (rest : string) :
  ServeHTTP p sf (p ++ rest) =
    if String.eqb rest "" then RouteRedirect (p ++ "/")
    else if String.eqb rest "/" then RouteRoot
    else if String.prefix "/del/" rest then RouteDeletion
    else if decide (rest ∈ sf) then RouteStatic rest
    else RouteRequest.
Proof. unfold ServeHTTP. rewrite strings_cut_app. reflexivity. Qed.

(** How [ServeHTTP] routes a path: without the URL prefix in it, or with
    nothing after the prefix, it redirects to prefix + "/"; prefix + "/"
    goes to the root handler; prefix + "/del/..." always goes to the
    deletion handler, even when a static file has that name; any other
    name of a static file after the prefix is served as that file. *)
Theorem ServeHTTP_routes (p : string) (sf : gset string) :
  (forall path, strings_index p path = None -> ServeHTTP p sf path = RouteRedirect (p ++ "/")) /\
  ServeHTTP p sf p = RouteRedirect (p ++ "/") /\
  ServeHTTP p sf (p ++ "/") = RouteRoot /\
  (forall x, ServeHTTP p sf (p ++ "/del/" ++ x) = RouteDeletion) /\
  (forall name, name ∈ sf -> name <> EmptyString -> name <> "/"%string ->
     String.prefix "/del/" name = false -> ServeHTTP p sf (p ++ name) = RouteStatic name).
Proof.
  split; [|split; [|split; [|split]]].
  - intros path H. unfold ServeHTTP, strings_cut. rewrite H. reflexivity.
  - rewrite <- (append_empty_r p) at 2. rewrite ServeHTTP_app. reflexivity.
  - rewrite ServeHTTP_app. reflexivity.
  - intros x. rewrite ServeHTTP_app. rewrite prefix_app. reflexivity.
  - intros name Hin Hne Hns Hd. rewrite ServeHTTP_app.
    replace (String.eqb name "") with false by (symmetry; apply String.eqb_neq; exact Hne).
    replace (String.eqb name "/") with false by (symmetry; apply String.eqb_neq; exact Hns).
    rewrite Hd. destruct (decide (name ∈ sf)); [reflexivity|contradiction].
Qed.

(** What a successful [NewItemFromRequest] builds. *)
Lemma NewItemFromRequest_fields (r : Request) (maxSize maxLifetime : Z) (env : Env) (it : Item) :
  NewItemFromRequest r maxSize maxLifetime env = inl it ->
  exists fh key,
    req_multipart_ok r = true /\ req_file r = Some fh /\ 0 < fh_Size fh <= maxSize /\
    env_random_key env = Some key /\ fh_ContentType fh <> EmptyString /\
    it = mkItem "" key (String.eqb (req_burn r) "1") (sanitize_filename (fh_Filename fh))
                (fh_ContentType fh) (env_now env) (Expires it) (Owner it).
Proof.
  unfold NewItemFromRequest.
  destruct (req_multipart_ok r) eqn:Hm; [|discriminate].
  destruct (req_file r) as [fh|] eqn:Hf; [|discriminate].
  destruct (fh_Size fh >? maxSize) eqn:Hs1; [discriminate|].
  destruct (fh_Size fh <=? 0) eqn:Hs2; [discriminate|].
  destruct (env_random_key env) as [key|] eqn:Hk; [|discriminate].
  destruct (String.eqb (fh_ContentType fh) "") eqn:Hc; [discriminate|].
  rewrite Z.gtb_ltb in Hs1. apply Z.ltb_ge in Hs1. apply Z.leb_gt in Hs2.
  apply String.eqb_neq in Hc.
  intros H. exists fh, key.
  do 5 (split; [first [reflexivity | lia | exact Hc]|]).
  destruct (req_time r) as [|c t].
  - destruct (req_owners r); [|discriminate]. inversion H; subst. reflexivity.
  - destruct (ParseDuration (String c t)) as [plt|]; [|discriminate].
    destruct (plt >? maxLifetime); [discriminate|].
    destruct (req_owners r); [|discriminate]. inversion H; subst. reflexivity.
Qed.

(** The Item [handleUpload] hands to [serv.store.Put]: it comes from the
    request's "file" part, whose size is positive and at most [maxSize];
    its filename is the sanitized one, its Content-Type is non-empty and
    not in [mimeDrop]; its [ID] is empty, its deletion key is the random
    one, it is created now and expires at most [maxLifetime] later; it is
    burnt after reading exactly when the form value "burn" is "1".  The
    answer is 200 exactly when [Put] succeeds. *)
Theorem handleUpload_put_item (r : Request) (maxSize maxLifetime : Z) (env : Env)
    (mimeDrop : gset string) (put_ok : bool) (code : Z) (it : Item) :
  handleUpload r maxSize maxLifetime env mimeDrop put_ok = (code, Some it) ->
  (exists fh, req_file r = Some fh /\ 0 < fh_Size fh <= maxSize /\
              Filename it = sanitize_filename (fh_Filename fh) /\
              ContentType it = fh_ContentType fh) /\
  ContentType it <> EmptyString /\ (ContentType it ∉ mimeDrop) /\
  ID it = EmptyString /\ env_random_key env = Some (DeletionKey it) /\
  Created it = env_now env /\ Expires it <= Created it + maxLifetime /\
  BurnAfterReading it = String.eqb (req_burn r) "1" /\
  (code = 200 <-> put_ok = true).
Proof.
  unfold handleUpload.
  destruct (NewItemFromRequest r maxSize maxLifetime env) as [i|e] eqn:E;
    [|destruct e; discriminate].
  destruct (decide (ContentType i ∈ mimeDrop)) as [|Hnd]; [discriminate|].
  intros H. inversion H; subst; clear H.
  pose proof (NewItemFromRequest_lifetime_le_max _ _ _ _ _ E) as Hl.
  destruct (NewItemFromRequest_fields _ _ _ _ _ E) as [fh [key [_ [Hf [Hs [Hk [Hc Hi]]]]]]].
  rewrite Hi in Hnd, Hl |- *. cbn [ID DeletionKey BurnAfterReading Filename ContentType Created
    Expires] in *.
  split; [exists fh; repeat split; first [exact Hf | lia | reflexivity]|].
  do 7 (split; [first [exact Hc | exact Hnd | reflexivity | exact Hk | lia]|]).
  destruct put_ok; split; first [reflexivity | discriminate].
Qed.

Definition ex_request : Request :=
  mkRequest true (Some (mkFileHeader "../my notes.txt" 5 "text/plain")) "1" "1h"
    (Some [(RemoteAddr, "127.0.0.1"%string)]).

Definition ex_env : Env := mkEnv 1700000000000000000 (Some "3xYvQnV1fK8sWz"%string).

Lemma handleUpload_put_item_witness :
  let it := match snd (handleUpload ex_request 1048576 (24 * time_hour) ex_env
                         {[ "text/html"%string ]} true) with
            | Some it => it | None => empty_item end in
  (exists fh, req_file ex_request = Some fh /\ 0 < fh_Size fh <= 1048576 /\
              Filename it = sanitize_filename (fh_Filename fh) /\
              ContentType it = fh_ContentType fh) /\
  ContentType it <> EmptyString /\ (ContentType it ∉ ({[ "text/html"%string ]} : gset string)) /\
  ID it = EmptyString /\ env_random_key ex_env = Some (DeletionKey it) /\
  Created it = env_now ex_env /\ Expires it <= Created it + 24 * time_hour /\
  BurnAfterReading it = String.eqb (req_burn ex_request) "1" /\
  (200 = 200 <-> true = true).
Proof.
  apply (handleUpload_put_item ex_request 1048576 (24 * time_hour) ex_env
           {[ "text/html"%string ]} true 200).
  vm_compute. reflexivity.
Defined.

(** The size check comes first: a multipart request whose file is larger
    than [maxSize] is answered 406 and nothing is stored, whatever its
    lifetime, burn flag, Content-Type or owners are. *)
Theorem handleUpload_too_big (r : Request) (fh : FileHeader) (maxSize maxLifetime : Z)
    (env : Env) (mimeDrop : gset string) (put_ok : bool) :
  req_multipart_ok r = true -> req_file r = Some fh -> maxSize < fh_Size fh ->
  handleUpload r maxSize maxLifetime env mimeDrop put_ok = (406, None).
Proof.
  intros Hm Hf Hs. unfold handleUpload, NewItemFromRequest.
  rewrite Hm, Hf. cbn [negb].
  replace (fh_Size fh >? maxSize) with true by (symmetry; apply Z.gtb_lt; exact Hs).
  reflexivity.
Qed.

Lemma handleUpload_too_big_witness :
  handleUpload (mkRequest true (Some (mkFileHeader "big.bin" 2000000 "")) "" "100y" None)
    1048576 (24 * time_hour) (mkEnv 0 None) ∅ true = (406, None).
Proof.
  apply (handleUpload_too_big _ (mkFileHeader "big.bin" 2000000 "")); reflexivity.
Defined.

End WebMore.

Module HandlerMore.
Import ItemModel WebModel WebFacts RpcModel.

(** [handleDeletion] deletes only with the right key: whenever it calls
    [Delete], the request was a GET whose path splits into three parts,
    the store returned an Item for the second part, the third part equals
    the Item's deletion key, and the deleted id is the Item's [ID]. *)
Theorem handleDeletion_delete_needs_key (method path : string) (get : get_reply)
    (delete_ok : bool) (x : string) :
  In (CallDelete x) (snd (fst (handleDeletion method path get delete_ok))) ->
  method = "GET"%string /\
  exists seg reqId item,
    split_slash (trim_left_slash path) = [seg; reqId; DeletionKey item] /\
    get = GetOk item /\ x = ID item.
Proof.
  unfold handleDeletion.
  destruct (String.eqb method "GET") eqn:Em; [|simpl; intros []].
  apply String.eqb_eq in Em. cbn [negb].
  destruct (split_slash (trim_left_slash path)) as [|seg [|reqId [|delKey [|? ?]]]] eqn:Es;
    try (simpl; intros []).
  destruct get as [item| |]; try (simpl; intros [H|[]]; discriminate).
  destruct (string_ne (DeletionKey item) delKey) as [ne cost] eqn:Ene.
  destruct ne; [simpl; intros [H|[]]; discriminate|].
  assert (Hk : DeletionKey item = delKey).
  { pose proof (string_ne_eqb (DeletionKey item) delKey) as Hq. rewrite Ene in Hq.
    simpl in Hq. destruct (String.eqb_spec (DeletionKey item) delKey); [assumption|].
    discriminate. }
  intros H. split; [exact Em|]. exists seg, reqId, item.
  split; [rewrite Hk; reflexivity|]. split; [reflexivity|].
  destruct delete_ok; simpl in H; destruct H as [H|[H|[]]]; congruence.
Qed.

Lemma handleDeletion_delete_needs_key_witness :
  "GET"%string = "GET"%string /\
  exists seg reqId item,
    split_slash (trim_left_slash "/del/q/k3y") = [seg; reqId; DeletionKey item] /\
    GetOk (mkItem "q" "k3y" false "f" "text/plain" 0 10 []) = GetOk item /\
    "q"%string = ID item.
Proof.
  apply (handleDeletion_delete_needs_key "GET" "/del/q/k3y"
           (GetOk (mkItem "q" "k3y" false "f" "text/plain" 0 10 [])) true).
  vm_compute. right. left. reflexivity.
Defined.

(** [handleDeletion] on "/del/<id>/<key>" with [id] and [key] free of
    slashes: the store is asked for [id]; with the Item's deletion key it
    deletes the Item by its [ID] and answers 200 (400 if the deletion
    fails), with any other key it answers 403 and deletes nothing. *)
Theorem handleDeletion_del_path (id key : string) (item : Item) (delete_ok : bool) :
  no_slash id = true -> no_slash key = true ->
  fst (handleDeletion "GET" ("/del/" ++ id ++ "/" ++ key) (GetOk item) delete_ok) =
    if String.eqb (DeletionKey item) key
    then ((if delete_ok then 200 else 400), [CallGet id; CallDelete (ID item)])
    else (403, [CallGet id]).
Proof.
  intros Hi Hk. unfold handleDeletion. cbn [String.eqb negb].
  change (trim_left_slash ("/del/" ++ id ++ "/" ++ key))
    with (trim_left_slash ("del/" ++ id ++ "/" ++ key)).
  rewrite split_slash_del by assumption.
  destruct (string_ne (DeletionKey item) key) as [ne c] eqn:E.
  pose proof (string_ne_eqb (DeletionKey item) key) as Hq. rewrite E in Hq. simpl in Hq.
  subst ne. destruct (String.eqb (DeletionKey item) key), delete_ok; reflexivity.
Qed.

Lemma handleDeletion_del_path_witness :
  fst (handleDeletion "GET" ("/del/" ++ "q" ++ "/" ++ "wrong")
         (GetOk (mkItem "q" "k3y" false "f" "text/plain" 0 10 [])) true) = (403, [CallGet "q"]).
Proof.
  apply (handleDeletion_del_path "q" "wrong" (mkItem "q" "k3y" false "f" "text/plain" 0 10 []) true);
    reflexivity.
Defined.

(** [handleRequest] deletes only a burn-after-reading Item it has just
    answered for: whenever it calls [Delete], the request was a GET, the
    store returned an Item with the burn flag set, the deleted id is its
    [ID], and the answer was 304 to a matching conditional GET or 200
    with the file streamed. *)
Theorem handleRequest_delete_only_burnt (method reqId : string) (ims : option Z)
    (get : get_reply) (getfile_ok : bool) (x : string) :
  In (CallDelete x) (snd (handleRequest method reqId ims get getfile_ok)) ->
  method = "GET"%string /\
  exists item, get = GetOk item /\ BurnAfterReading item = true /\ x = ID item /\
    ((hasClientCachedRequest ims item = true /\
      fst (handleRequest method reqId ims get getfile_ok) = mkResponse 304 false) \/
     (hasClientCachedRequest ims item = false /\ getfile_ok = true /\
      fst (handleRequest method reqId ims get getfile_ok) = mkResponse 200 true)).
Proof.
  unfold handleRequest.
  destruct (String.eqb method "GET") eqn:Em; [|simpl; intros []].
  apply String.eqb_eq in Em. cbn [negb].
  destruct get as [item| |]; try (simpl; intros [H|[]]; discriminate).
  intros H. split; [exact Em|]. exists item. split; [reflexivity|].
  destruct (hasClientCachedRequest ims item) eqn:Hc.
  - destruct (BurnAfterReading item) eqn:Hb;
      [|simpl in H; destruct H as [H|[]]; discriminate].
    simpl in H. destruct H as [H|[H|[]]]; [discriminate|].
    injection H as ->. split; [reflexivity|]. split; [reflexivity|]. left. split; reflexivity.
  - destruct getfile_ok; [|simpl in H; destruct H as [H|[H|[]]]; discriminate].
    destruct (BurnAfterReading item) eqn:Hb;
      [|simpl in H; destruct H as [H|[H|[]]]; discriminate].
    simpl in H. destruct H as [H|[H|[H|[]]]]; try discriminate.
    injection H as ->. split; [reflexivity|]. split; [reflexivity|]. right. split; [reflexivity|].
    split; reflexivity.
Qed.

Lemma handleRequest_delete_only_burnt_witness :
  "GET"%string = "GET"%string /\
  exists item, GetOk (mkItem "q" "k" true "f" "text/plain" 0 10 []) = GetOk item /\
    BurnAfterReading item = true /\ "q"%string = ID item /\
    ((hasClientCachedRequest None item = true /\
      fst (handleRequest "GET" "q" None (GetOk (mkItem "q" "k" true "f" "text/plain" 0 10 [])) true)
        = mkResponse 304 false) \/
     (hasClientCachedRequest None item = false /\ true = true /\
      fst (handleRequest "GET" "q" None (GetOk (mkItem "q" "k" true "f" "text/plain" 0 10 [])) true)
        = mkResponse 200 true)).
Proof.
  apply (handleRequest_delete_only_burnt "GET" "q" None
           (GetOk (mkItem "q" "k" true "f" "text/plain" 0 10 [])) true).
  vm_compute. right. right. left. reflexivity.
Defined.

(** [StoreRpcClient.call] when the deadline does not interfere: with
    [context.Background()] a reply that arrives before 3 s is returned as
    it is; when the parent context is cancelled before 3 s and before any
    reply, [call] returns the parent's error. *)
Theorem call_before_deadline :
  (forall tr e, tr < rpc_timeout -> call Background (Some (tr, e)) = [e]) /\
  (forall t why rep, t < rpc_timeout ->
     (forall tr e, rep = Some (tr, e) -> t < tr) ->
     call (CancelledAt t why) rep = [Some why]).
Proof.
  split.
  - intros tr e H. unfold call, timeout_done_at. simpl.
    replace (tr <? rpc_timeout) with true by (symmetry; apply Z.ltb_lt; exact H). reflexivity.
  - intros t why rep Ht Hr. unfold call, timeout_done_at, ctx_err. simpl.
    rewrite Z.min_l by lia. rewrite Z.leb_refl.
    destruct rep as [[tr e]|]; [|reflexivity].
    specialize (Hr tr e eq_refl).
    replace (tr <? t) with false by (symmetry; apply Z.ltb_ge; lia).
    replace (t <? tr) with true by (symmetry; apply Z.ltb_lt; exact Hr). reflexivity.
Qed.

End HandlerMore.

Module FilenameMore.
Import ItemModel.

Lemma strip_trailing_head (r t : list ascii) (c : ascii) :
  strip_trailing_slashes_rev r = c :: t -> Ascii.eqb c "/"%char = false.
Proof.
  induction r as [|d r IH]; simpl; [discriminate|].
  destruct (Ascii.eqb d "/"%char) eqn:Ed; [exact IH|]. intros H. inversion H; subst. exact Ed.
Qed.

Lemma string_of_list_ascii_app_single (l : list ascii) (c : ascii) :
  string_of_list_ascii (l ++ [c]) <> EmptyString.
Proof. destruct l; simpl; discriminate. Qed.

Lemma Base_nonempty (p : string) : Base p <> EmptyString.
Proof.
  destruct p as [|c0 p]; [discriminate|]. unfold Base.
  destruct (strip_trailing_slashes_rev (rev (list_ascii_of_string (String c0 p)))) as [|c t] eqn:E;
    [discriminate|].
  pose proof (strip_trailing_head _ _ _ E) as Hc. simpl. rewrite Hc. simpl.
  apply string_of_list_ascii_app_single.
Qed.

Lemma DecodeRune_width (s : string) : (1 <= snd (DecodeRune s))%nat.
Proof.
  unfold DecodeRune.
  destruct (byte_at s 0 <? 128); [simpl; lia|].
  destruct (utf8_first (byte_at s 0)) as [[[sz lo] hi]|]; [|simpl; lia].
  repeat match goal with |- context [if ?b then _ else _] => destruct b end; simpl; lia.
Qed.

Lemma replace_all_nonempty (fuel : nat) (s : string) :
  fuel <> 0%nat -> s <> EmptyString -> replace_all fuel s <> EmptyString.
Proof.
  intros Hf Hs. destruct fuel as [|f]; [contradiction|]. destruct s as [|c t]; [contradiction|].
  cbn [replace_all]. pose proof (DecodeRune_width (String c t)) as Hw.
  destruct (DecodeRune (String c t)) as [r w]. simpl in Hw.
  destruct (filename_class r); [|discriminate].
  destruct w as [|w]; [lia|]. simpl. discriminate.
Qed.

(** The filename [NewItemFromRequest] stores is never empty, whatever the
    client sent as filename, the empty one included. *)
Theorem sanitize_filename_nonempty (f : string) : sanitize_filename f <> EmptyString.
Proof.
  unfold sanitize_filename, ReplaceAllFilename.
  pose proof (Base_nonempty (Clean f)) as Hb.
  apply replace_all_nonempty; [|exact Hb].
  destruct (Base (Clean f)); [contradiction|discriminate].
Qed.

End FilenameMore.
